(** * sparp: Simple Parallel Asynchronous Requests in Python

    A shallow embedding of [src/sparp/sparp.py] and the proofs of the
    properties its specification states about the dispatch core: the
    lock-guarded counters of [SharedMemory], the producer, the pool of
    consumers, the canceler, the updater and the final drain.

    The program is a set of asyncio coroutines run by [asyncio.gather] on
    one event loop.  A coroutine runs without interruption from one [await]
    to the next, so the embedding gives every coroutine a program counter
    that names the [await] it is suspended at, and a transition function
    that performs the awaited operation and the synchronous code up to the
    next [await].  The event loop is the interleaving of these transitions;
    the order is chosen by a schedule (a list of labels).  Every [await] is
    treated as a point where the loop may switch, which includes every
    order asyncio can produce. *)

From Stdlib Require Import ZArith QArith Lqa Lia List Bool String.
From stdpp Require Import base option list strings gmap fin_maps.
From stdpp Require Import pretty.

Local Open Scope string_scope.
Local Open Scope list_scope.
Local Open Scope Z_scope.

(** ** Python values and exceptions *)

(** The values that occur in task descriptors and in outcome records. *)
#[local] Set Warnings "-register-all".
Inductive PyVal : Type :=
| VNone
| VBool (b : bool)
| VInt (z : Z)
| VFloat (q : Q)
| VStr (s : string)
| VList (l : list PyVal)
| VDict (d : list (string * PyVal)).
#[local] Set Warnings "register-all".

(** Exceptions the pipeline itself raises. *)
Inductive PyExn : Type :=
| ValueError (msg : string)
| ZeroDivisionError
| KeyError (key : string).

(** An exception raised inside the execution collaborator (a subclass of
    [Exception]): [str(e)] and the text that
    ["".join(traceback.format_exception( *sys.exc_info()))] gives for it. *)
Record CollabExn : Type := {
  exn_str : string;
  exn_traceback : string
}.

(** Outcome of an operation of the collaborator. *)
Inductive Try (A : Type) : Type :=
| Returned (a : A)
| Raised (e : CollabExn).
Arguments Returned {A} a.
Arguments Raised {A} e.

(** Outcome of resuming a coroutine at its [await]: it runs to the next
    [await] ([Ok]), the awaited operation is not ready and the coroutine
    stays suspended ([Block]), or an exception leaves the coroutine
    ([Raise]). *)
Inductive Result (A : Type) : Type :=
| Ok (a : A)
| Block
| Raise (e : PyExn).
Arguments Ok {A} a.
Arguments Block {A}.
Arguments Raise {A} e.

#[global] Instance Result_bind : MBind Result := fun A B k m =>
  match m with
  | Ok a => k a
  | Block => Block
  | Raise e => Raise e
  end.

(** ** SharedMemory *)

(** The fields of [SharedMemory] that decide control flow.  [cols],
    [start_time] and [print_options] only shape the text of the progress
    bar and are left out.  [total = -1] stands for an unknown total. *)
Record SharedMemory : Type := {
  lock : bool;
  done : Z;
  success : Z;
  fail : Z;
  total : Z;
  should_stop : bool;
  disable_bar : bool
}.

Definition set_lock (b : bool) (self : SharedMemory) : SharedMemory :=
  {| lock := b; done := done self; success := success self;
     fail := fail self; total := total self;
     should_stop := should_stop self; disable_bar := disable_bar self |}.

(** [print_counter]: the text goes to the terminal and is not modelled.
    What matters to the pipeline is whether it returns:
    [int(self.done / self.total * self.cols)] divides by [total] unless
    [total == -1]. *)
Definition print_counter (self : SharedMemory) : Result unit :=
  if total self =? -1 then Ok tt
  else if total self =? 0 then Raise ZeroDivisionError
  else Ok tt.

(** [if not self.disable_bar: self.print_counter()] *)
Definition print_unless_disabled (self : SharedMemory) : Result unit :=
  if disable_bar self then Ok tt else print_counter self.

(** [async with self.lock: body].  Acquiring a held lock suspends the
    caller.  No body below awaits, so the lock is released before the
    coroutine can be suspended again. *)
Definition with_lock {A : Type} (self : SharedMemory)
    (body : SharedMemory -> Result (A * SharedMemory)) : Result (A * SharedMemory) :=
  if lock self then Block
  else
    '(a, self') ← body (set_lock true self);
    Ok (a, set_lock false self').

(** [SharedMemory.__init__] *)
Definition SharedMemory_init (total0 : Z) (disable_bar0 : bool) : Result SharedMemory :=
  let self := {| lock := false; done := 0; success := 0; fail := 0;
                 total := total0; should_stop := false;
                 disable_bar := disable_bar0 |} in
  _ ← print_unless_disabled self;
  Ok self.

Definition set_should_stop (self : SharedMemory) : Result (unit * SharedMemory) :=
  with_lock self (fun self =>
    Ok (tt, {| lock := lock self; done := done self; success := success self;
               fail := fail self; total := total self;
               should_stop := true; disable_bar := disable_bar self |})).

Definition get_should_stop (self : SharedMemory) : Result (bool * SharedMemory) :=
  with_lock self (fun self => Ok (should_stop self, self)).

Definition increment_success (self : SharedMemory) : Result (unit * SharedMemory) :=
  with_lock self (fun self =>
    let self := {| lock := lock self; done := done self + 1;
                   success := success self + 1;
                   fail := fail self; total := total self;
                   should_stop := should_stop self;
                   disable_bar := disable_bar self |} in
    _ ← print_unless_disabled self;
    Ok (tt, self)).

Definition increment_fail (self : SharedMemory) : Result (unit * SharedMemory) :=
  with_lock self (fun self =>
    let self := {| lock := lock self; done := done self + 1;
                   success := success self;
                   fail := fail self + 1; total := total self;
                   should_stop := should_stop self;
                   disable_bar := disable_bar self |} in
    _ ← print_unless_disabled self;
    Ok (tt, self)).

Definition update (self : SharedMemory) : Result (unit * SharedMemory) :=
  with_lock self (fun self =>
    _ ← print_unless_disabled self;
    Ok (tt, self)).

Definition check_done (self : SharedMemory) : Result (bool * SharedMemory) :=
  with_lock self (fun self => Ok (total self =? done self, self)).

Definition set_total (new_total : Z) (self : SharedMemory) : Result (unit * SharedMemory) :=
  with_lock self (fun self =>
    if total self =? -1
    then Ok (tt, {| lock := lock self; done := done self;
                    success := success self; fail := fail self;
                    total := new_total; should_stop := should_stop self;
                    disable_bar := disable_bar self |})
    else Ok (tt, self)).

(** ** Queues and the semaphore *)

(** [asyncio.Queue()] without a size bound: [put] never suspends and
    appends at the tail; [get_nowait] takes the head or raises
    [QueueEmpty] ([None]). *)
Definition put {A : Type} (queue : list A) (item : A) : list A := queue ++ [item].

Definition get_nowait {A : Type} (queue : list A) : option (A * list A) :=
  match queue with
  | [] => None
  | item :: queue' => Some (item, queue')
  end.

(** [asyncio.Semaphore(0)]: the value is a natural number; [acquire]
    suspends the caller while it is zero. *)
Definition release (value : nat) : nat := S value.

Definition acquire (value : nat) : Result nat :=
  match value with
  | O => Block
  | S value' => Ok value'
  end.

(** ** The execution collaborator *)

(** What [session.request( **config)] gives back: the response object with
    its [status], and what reading [text()], [json()] and the [elapsed]
    attribute (set by the [on_request_end] hook) does. *)
Record ClientResponse : Type := {
  status : Z;
  text : Try string;
  json : Try PyVal;
  elapsed : Try PyVal
}.

(** The [except Exception] branch of [consumer]. *)
Definition error_response (e : CollabExn) : gmap string PyVal :=
  {[ "error_message" := VStr (exn_traceback e) ]}.

(** The outer [try] of [consumer], from [session.request] to the dict
    bound to [response]. *)
Definition consumer_try (call : Try ClientResponse) : gmap string PyVal :=
  match call with
  | Raised e => error_response e
  | Returned response =>
      let status_code := status response in
      match text response with
      | Raised e => error_response e
      | Returned response_text =>
          let json_ :=
            match json response with
            | Returned j => j
            | Raised e => VStr ("Failed to decode json due to " +:+ exn_str e)
            end in
          match elapsed response with
          | Raised e => error_response e
          | Returned elapsed_ =>
              {[ "text" := VStr response_text;
                 "status_code" := VInt status_code;
                 "json" := json_;
                 "elapsed" := elapsed_ ]}
          end
      end
  end.

(** Python's [v == z] for an integer [z]. *)
Definition py_eq_int (v : PyVal) (z : Z) : bool :=
  match v with
  | VInt n => n =? z
  | VBool b => (if b then 1 else 0) =? z
  | VFloat q => Qeq_bool q (inject_Z z)
  | _ => false
  end.

(** [v in ok_status_codes] *)
Definition py_in (v : PyVal) (ok_status_codes : list Z) : bool :=
  existsb (py_eq_int v) ok_status_codes.

(** The condition of the [if] after the sink put:
    ["error_message" in response or response["status_code"] not in ok_status_codes].
    The subscript raises [KeyError] when the key is missing. *)
Definition is_failure (response : gmap string PyVal) (ok_status_codes : list Z)
    : Result bool :=
  match response !! "error_message" with
  | Some _ => Ok true
  | None =>
      match response !! "status_code" with
      | Some v => Ok (negb (py_in v ok_status_codes))
      | None => Raise (KeyError "status_code")
      end
  end.

(** ** Arguments of [async_sparp] *)

(** [retry_status_codes], [aiohttp_client_session_kwargs] and
    [print_kwargs] are handed to the collaborator and to [print] unchanged
    and are left out.  [configs] is the sequence the iterable yields;
    [configs_has_len] is [hasattr(configs, "__len__")]. *)
Record Args : Type := {
  configs : list (gmap string PyVal);
  configs_has_len : bool;
  max_outstanding_requests : Z;
  time_between_requests : Q;
  ok_status_codes : list Z;
  stop_on_first_fail : bool;
  arg_disable_bar : bool;
  attempts : Z
}.

(** ** Coroutines *)

(** Where [producer] is suspended. *)
Inductive ProducerPc : Type :=
| PPut (item : gmap string PyVal) (rest : list (gmap string PyVal)) (total : Z)
| PSleep (wake : Q) (rest : list (gmap string PyVal)) (total : Z)
| PSetTotal (total : Z)
| PReturned.

(** Where [canceler] is suspended. *)
Inductive CancelerPc : Type :=
| KSleep (wake : Q)
| KCheckDone
| KGetShouldStop (is_done : bool)
| KReturned.

(** Where [updater] is suspended. *)
Inductive UpdaterPc : Type :=
| USleep (wake : Q)
| UUpdate
| UCheckDone
| UGetShouldStop (done : bool)
| UReturned.

(** Where a [consumer] is suspended.  [CAcquire]: waiting in
    [source_semaphore.acquire()].  [CAcquired]: the permit is taken and
    the coroutine is about to run [get_nowait].  [CRequest]: inside the
    outer [try].  The others name the [await] that comes next. *)
Inductive ConsumerPc : Type :=
| CAcquire
| CAcquired
| CRequest (config : gmap string PyVal)
| CSinkPut (response : gmap string PyVal)
| CIncrementFail
| CIncrementSuccess
| CSetShouldStop
| CReturned.

(** The state of the pipeline between two transitions.  [now] is the
    clock of the event loop. *)
Record State : Type := {
  now : Q;
  shared : SharedMemory;
  source_queue : list (gmap string PyVal);
  source_semaphore : nat;
  sink_queue : list (gmap string PyVal);
  producer_pc : ProducerPc;
  canceler_pc : CancelerPc;
  updater_pc : UpdaterPc;
  consumers : list ConsumerPc
}.

Definition set_now (t : Q) (s : State) : State :=
  {| now := t; shared := shared s; source_queue := source_queue s;
     source_semaphore := source_semaphore s; sink_queue := sink_queue s;
     producer_pc := producer_pc s; canceler_pc := canceler_pc s;
     updater_pc := updater_pc s; consumers := consumers s |}.

Definition set_shared (sh : SharedMemory) (s : State) : State :=
  {| now := now s; shared := sh; source_queue := source_queue s;
     source_semaphore := source_semaphore s; sink_queue := sink_queue s;
     producer_pc := producer_pc s; canceler_pc := canceler_pc s;
     updater_pc := updater_pc s; consumers := consumers s |}.

Definition set_source_queue (q : list (gmap string PyVal)) (s : State) : State :=
  {| now := now s; shared := shared s; source_queue := q;
     source_semaphore := source_semaphore s; sink_queue := sink_queue s;
     producer_pc := producer_pc s; canceler_pc := canceler_pc s;
     updater_pc := updater_pc s; consumers := consumers s |}.

Definition set_source_semaphore (v : nat) (s : State) : State :=
  {| now := now s; shared := shared s; source_queue := source_queue s;
     source_semaphore := v; sink_queue := sink_queue s;
     producer_pc := producer_pc s; canceler_pc := canceler_pc s;
     updater_pc := updater_pc s; consumers := consumers s |}.

Definition set_sink_queue (q : list (gmap string PyVal)) (s : State) : State :=
  {| now := now s; shared := shared s; source_queue := source_queue s;
     source_semaphore := source_semaphore s; sink_queue := q;
     producer_pc := producer_pc s; canceler_pc := canceler_pc s;
     updater_pc := updater_pc s; consumers := consumers s |}.

Definition set_producer (pc : ProducerPc) (s : State) : State :=
  {| now := now s; shared := shared s; source_queue := source_queue s;
     source_semaphore := source_semaphore s; sink_queue := sink_queue s;
     producer_pc := pc; canceler_pc := canceler_pc s;
     updater_pc := updater_pc s; consumers := consumers s |}.

Definition set_canceler (pc : CancelerPc) (s : State) : State :=
  {| now := now s; shared := shared s; source_queue := source_queue s;
     source_semaphore := source_semaphore s; sink_queue := sink_queue s;
     producer_pc := producer_pc s; canceler_pc := pc;
     updater_pc := updater_pc s; consumers := consumers s |}.

Definition set_updater (pc : UpdaterPc) (s : State) : State :=
  {| now := now s; shared := shared s; source_queue := source_queue s;
     source_semaphore := source_semaphore s; sink_queue := sink_queue s;
     producer_pc := producer_pc s; canceler_pc := canceler_pc s;
     updater_pc := pc; consumers := consumers s |}.

Definition set_consumer (i : nat) (pc : ConsumerPc) (s : State) : State :=
  {| now := now s; shared := shared s; source_queue := source_queue s;
     source_semaphore := source_semaphore s; sink_queue := sink_queue s;
     producer_pc := producer_pc s; canceler_pc := canceler_pc s;
     updater_pc := updater_pc s; consumers := <[i := pc]> (consumers s) |}.

(** [await asyncio.sleep(delay)] called at time [t] resumes the caller at
    a time not before [t + delay] (at once when [delay <= 0]). *)
Definition sleep (t delay : Q) : Q := (t + delay)%Q.

Definition awake (wake : Q) (s : State) : bool := Qle_bool wake (now s).

(** The head of [for item in items] in [producer]: the next item is
    counted, or the loop ends. *)
Definition producer_for (items : list (gmap string PyVal)) (total : Z) : ProducerPc :=
  match items with
  | [] => PSetTotal total
  | item :: rest => PPut item rest (total + 1)
  end.

Definition producer (time_between_requests : Q) (s : State) : Result State :=
  match producer_pc s with
  | PPut item rest total =>
      let s := set_source_queue (put (source_queue s) item) s in
      let s := set_source_semaphore (release (source_semaphore s)) s in
      Ok (set_producer (PSleep (sleep (now s) time_between_requests) rest total) s)
  | PSleep wake rest total =>
      if awake wake s then Ok (set_producer (producer_for rest total) s) else Block
  | PSetTotal total =>
      '(_, sh) ← set_total total (shared s);
      Ok (set_producer PReturned (set_shared sh s))
  | PReturned => Block
  end.

Definition canceler (n_consumers : Z) (s : State) : Result State :=
  match canceler_pc s with
  | KSleep wake =>
      if awake wake s then Ok (set_canceler KCheckDone s) else Block
  | KCheckDone =>
      '(is_done, sh) ← check_done (shared s);
      Ok (set_canceler (KGetShouldStop is_done) (set_shared sh s))
  | KGetShouldStop is_done =>
      '(should_stop, sh) ← get_should_stop (shared s);
      let s := set_shared sh s in
      if is_done || should_stop
      then
        let value := Nat.iter (Z.to_nat n_consumers) release (source_semaphore s) in
        Ok (set_canceler KReturned (set_source_semaphore value s))
      else Ok (set_canceler (KSleep (sleep (now s) (1 # 10))) s)
  | KReturned => Block
  end.

Definition updater (s : State) : Result State :=
  match updater_pc s with
  | USleep wake =>
      if awake wake s then Ok (set_updater UUpdate s) else Block
  | UUpdate =>
      '(_, sh) ← update (shared s);
      Ok (set_updater UCheckDone (set_shared sh s))
  | UCheckDone =>
      '(done, sh) ← check_done (shared s);
      Ok (set_updater (UGetShouldStop done) (set_shared sh s))
  | UGetShouldStop done =>
      '(should_stop, sh) ← get_should_stop (shared s);
      let s := set_shared sh s in
      if done || should_stop
      then
        _ ← print_unless_disabled (shared s);
        Ok (set_updater UReturned s)
      else Ok (set_updater (USleep (sleep (now s) (3 # 10))) s)
  | UReturned => Block
  end.

(** Consumer number [i] resumes.  In [CRequest] it waits for the
    collaborator and is resumed by [consumer_response] instead. *)
Definition consumer (ok_status_codes : list Z) (stop_on_first_fail : bool)
    (i : nat) (s : State) : Result State :=
  match consumers s !! i with
  | None => Block
  | Some CAcquire =>
      value ← acquire (source_semaphore s);
      Ok (set_consumer i CAcquired (set_source_semaphore value s))
  | Some CAcquired =>
      match get_nowait (source_queue s) with
      | None => Ok (set_consumer i CReturned s)
      | Some (config, queue) =>
          Ok (set_consumer i (CRequest config) (set_source_queue queue s))
      end
  | Some (CRequest _) => Block
  | Some (CSinkPut response) =>
      let s := set_sink_queue (put (sink_queue s) response) s in
      failed ← is_failure response ok_status_codes;
      Ok (set_consumer i (if failed : bool then CIncrementFail else CIncrementSuccess) s)
  | Some CIncrementFail =>
      '(_, sh) ← increment_fail (shared s);
      Ok (set_consumer i (if stop_on_first_fail then CSetShouldStop else CAcquire)
            (set_shared sh s))
  | Some CIncrementSuccess =>
      '(_, sh) ← increment_success (shared s);
      Ok (set_consumer i CAcquire (set_shared sh s))
  | Some CSetShouldStop =>
      '(_, sh) ← set_should_stop (shared s);
      Ok (set_consumer i CAcquire (set_shared sh s))
  | Some CReturned => Block
  end.

(** The collaborator finishes the call of consumer [i] with [call]; the
    consumer runs the rest of the outer [try] and reaches the sink put. *)
Definition consumer_response (i : nat) (call : Try ClientResponse) (s : State)
    : Result State :=
  match consumers s !! i with
  | Some (CRequest _) => Ok (set_consumer i (CSinkPut (consumer_try call)) s)
  | _ => Block
  end.

(** ** The event loop *)

Inductive Label : Type :=
| LTick (dt : Q)
| LProducer
| LCanceler
| LUpdater
| LConsumer (i : nat)
| LResponse (i : nat) (call : Try ClientResponse).

Definition step (a : Args) (l : Label) (s : State) : Result State :=
  match l with
  | LTick dt => if Qle_bool 0 dt then Ok (set_now (now s + dt)%Q s) else Block
  | LProducer => producer (time_between_requests a) s
  | LCanceler => canceler (max_outstanding_requests a) s
  | LUpdater => updater s
  | LConsumer i => consumer (ok_status_codes a) (stop_on_first_fail a) i s
  | LResponse i call => consumer_response i call s
  end.

Fixpoint run (a : Args) (schedule : list Label) (s : State) : Result State :=
  match schedule with
  | [] => Ok s
  | l :: schedule' => s' ← step a l s; run a schedule' s'
  end.

Definition consumer_returned (pc : ConsumerPc) : bool :=
  match pc with CReturned => true | _ => false end.

(** [asyncio.gather] returns when every coroutine has returned. *)
Definition all_returned (s : State) : bool :=
  match producer_pc s, canceler_pc s, updater_pc s with
  | PReturned, KReturned, UReturned => forallb consumer_returned (consumers s)
  | _, _, _ => false
  end.

(** The state in which [async_main] starts the coroutines: the queues and
    the semaphore as [async_sparp] creates them, one consumer per
    [range(max_outstanding_requests)], every coroutine at its first
    [await]. *)
Definition async_main_init (a : Args) (sh : SharedMemory) : State :=
  {| now := 0;
     shared := sh;
     source_queue := [];
     source_semaphore := 0;
     sink_queue := [];
     producer_pc := producer_for (configs a) 0;
     canceler_pc := KSleep (sleep 0 (1 # 10));
     updater_pc := USleep (sleep 0 (3 # 10));
     consumers := replicate (Z.to_nat (max_outstanding_requests a)) CAcquire |}.

(** [async_main] under a schedule: the schedule has to bring every
    coroutine to its return. *)
Definition async_main (a : Args) (sh : SharedMemory) (schedule : list Label)
    : Result State :=
  s ← run a schedule (async_main_init a sh);
  if all_returned s then Ok s else Block.

(** The loop of [empty_full_queue], with [results] as accumulator:
    [get_nowait] hands over the head until it raises [QueueEmpty]. *)
Fixpoint empty_full_queue_loop {A : Type} (queue results : list A) : list A :=
  match queue with
  | [] => results
  | item :: queue' => empty_full_queue_loop queue' (results ++ [item])
  end.

Definition empty_full_queue {A : Type} (queue : list A) : list A :=
  empty_full_queue_loop queue [].

(** [async_sparp] under a schedule of the event loop. *)
Definition async_sparp (a : Args) (schedule : list Label)
    : Result (list (gmap string PyVal)) :=
  if attempts a <? 1 then Raise (ValueError "attempts should be at least 1")
  else
    let total :=
      if configs_has_len a then Z.of_nat (length (configs a)) else -1 in
    sh ← SharedMemory_init total (arg_disable_bar a);
    s ← async_main a sh schedule;
    Ok (empty_full_queue (sink_queue s)).

(** The states a call of [async_sparp] goes through. *)
Inductive reachable (a : Args) : State -> Prop :=
| reachable_init sh :
    (attempts a <? 1) = false ->
    SharedMemory_init
      (if configs_has_len a then Z.of_nat (length (configs a)) else -1)
      (arg_disable_bar a) = Ok sh ->
    reachable a (async_main_init a sh)
| reachable_step s l s' :
    reachable a s -> step a l s = Ok s' -> reachable a s'.

(** * Vocabulary of the statements *)

(** The number of task descriptors the source yields. *)
Definition n_configs (a : Args) : Z := Z.of_nat (length (configs a)).

(** Consumers counted by program counter. *)
Fixpoint count (f : ConsumerPc -> bool) (l : list ConsumerPc) : Z :=
  match l with
  | [] => 0
  | pc :: l' => (if f pc then 1 else 0) + count f l'
  end.

(** A consumer that took a task from the work queue and has not yet
    counted it. *)
Definition holding (pc : ConsumerPc) : bool :=
  match pc with
  | CRequest _ | CSinkPut _ | CIncrementFail | CIncrementSuccess => true
  | _ => false
  end.

(** A consumer whose outcome is in the sink and not yet counted. *)
Definition counting (pc : ConsumerPc) : bool :=
  match pc with
  | CIncrementFail | CIncrementSuccess => true
  | _ => false
  end.

(** A consumer inside the call of the collaborator. *)
Definition in_flight (pc : ConsumerPc) : bool :=
  match pc with
  | CRequest _ => true
  | _ => false
  end.

Definition producer_returned (pc : ProducerPc) : bool :=
  match pc with PReturned => true | _ => false end.

(** Items the producer has put on the work queue so far, out of [n]. *)
Definition produced (n : Z) (pc : ProducerPc) : Z :=
  match pc with
  | PPut _ _ total => total - 1
  | PSleep _ _ total => total
  | PSetTotal total => total
  | PReturned => n
  end.

(** The producer's counter and the items still to come add up to [n]. *)
Definition producer_ok (n : Z) (pc : ProducerPc) : Prop :=
  match pc with
  | PPut _ rest total => total + Z.of_nat (length rest) = n /\ 1 <= total
  | PSleep _ rest total => total + Z.of_nat (length rest) = n /\ 0 <= total
  | PSetTotal total => total = n
  | PReturned => True
  end.

(** An outcome record as the outer [try] of [consumer] builds it. *)
Definition built (response : gmap string PyVal) : Prop :=
  exists call, response = consumer_try call.

Definition pc_built (pc : ConsumerPc) : Prop :=
  match pc with
  | CSinkPut response => built response
  | _ => True
  end.

(** The invariant of the pipeline. *)
Record Inv (a : Args) (s : State) : Prop := {
  inv_lock : lock (shared s) = false;
  inv_sum : done (shared s) = success (shared s) + fail (shared s);
  inv_success : 0 <= success (shared s);
  inv_fail : 0 <= fail (shared s);
  inv_sink :
    Z.of_nat (length (sink_queue s))
    = done (shared s) + count counting (consumers s);
  inv_producer : producer_ok (n_configs a) (producer_pc s);
  inv_work :
    produced (n_configs a) (producer_pc s)
    = Z.of_nat (length (source_queue s)) + count holding (consumers s)
      + done (shared s);
  inv_total :
    total (shared s)
    = if configs_has_len a || producer_returned (producer_pc s)
      then n_configs a else -1;
  inv_is_done :
    canceler_pc s = KGetShouldStop true ->
    done (shared s) = n_configs a /\ total (shared s) = n_configs a;
  inv_canceler :
    canceler_pc s = KReturned ->
    should_stop (shared s) = true \/ done (shared s) = n_configs a;
  inv_pool : length (consumers s) = Z.to_nat (max_outstanding_requests a);
  inv_bar : disable_bar (shared s) = arg_disable_bar a;
  inv_built_pc : Forall pc_built (consumers s);
  inv_built_sink : Forall built (sink_queue s)
}.

(** The exception that ends the outer [try] of [consumer], if any. *)
Definition raised (call : Try ClientResponse) : option CollabExn :=
  match call with
  | Raised e => Some e
  | Returned response =>
      match text response with
      | Raised e => Some e
      | Returned _ =>
          match elapsed response with
          | Raised e => Some e
          | Returned _ => None
          end
      end
  end.

(** The producer is_admission an item (enqueue and permit release) in this
    step. *)
Definition is_admission (l : Label) (s : State) : bool :=
  match l, producer_pc s with
  | LProducer, PPut _ _ _ => true
  | _, _ => false
  end.

(** The clock readings at the admissions of a run, in order. *)
Fixpoint admission_times (a : Args) (schedule : list Label) (s : State) : list Q :=
  match schedule with
  | [] => []
  | l :: schedule' =>
      match step a l s with
      | Ok s' =>
          (if is_admission l s then [now s] else []) ++ admission_times a schedule' s'
      | _ => []
      end
  end.

(** Consecutive instants are at least [d] apart. *)
Fixpoint spaced (d : Q) (ts : list Q) : Prop :=
  match ts with
  | [] => True
  | t1 :: ts' =>
      match ts' with
      | [] => True
      | t2 :: _ => (t1 + d <= t2)%Q
      end /\ spaced d ts'
  end.

(** The state a schedule leads to from the start of [async_main]. *)
Definition state_after (a : Args) (sh : SharedMemory) (schedule : list Label) : State :=
  match run a schedule (async_main_init a sh) with
  | Ok s => s
  | _ => async_main_init a sh
  end.

(** * Example runs *)

Definition task (url : string) : gmap string PyVal :=
  {[ "method" := VStr "GET"; "url" := VStr url ]}.

Definition page (code : Z) : ClientResponse :=
  {| status := code;
     text := Returned "{}";
     json := Returned (VDict []);
     elapsed := Returned (VFloat (1 # 100)) |}.

Definition refused : CollabExn :=
  {| exn_str := "Cannot connect to host";
     exn_traceback := "Traceback (most recent call last): ClientConnectorError" |}.

(** Two tasks from a generator, two consumers, the progress bar on. *)
Definition pair_args : Args :=
  {| configs := [task "a"; task "b"];
     configs_has_len := false;
     max_outstanding_requests := 2;
     time_between_requests := 1 # 2;
     ok_status_codes := [200];
     stop_on_first_fail := false;
     arg_disable_bar := false;
     attempts := 3 |}.

Definition pair_shared : SharedMemory :=
  {| lock := false; done := 0; success := 0; fail := 0; total := -1;
     should_stop := false; disable_bar := false |}.

(** Both tasks are enqueued half a second apart and are in flight
    together. *)
Definition pair_both_in_flight : list Label :=
  [LProducer; LConsumer 0; LConsumer 0; LTick (1 # 2); LProducer; LProducer;
   LConsumer 1; LConsumer 1].

(** The first answers 200, the second 500; then the producer finishes, the
    canceler sees [done == total], the consumers and the updater return. *)
Definition pair_schedule : list Label :=
  pair_both_in_flight ++
  [LResponse 0 (Returned (page 200)); LResponse 1 (Returned (page 500));
   LConsumer 0; LConsumer 0; LConsumer 1; LConsumer 1;
   LTick (1 # 2); LProducer; LProducer;
   LCanceler; LCanceler; LCanceler;
   LConsumer 0; LConsumer 0; LConsumer 1; LConsumer 1;
   LUpdater; LUpdater; LUpdater; LUpdater].

(** Two tasks in a list, one consumer, [stop_on_first_fail]. *)
Definition stop_args : Args :=
  {| configs := [task "a"; task "b"];
     configs_has_len := true;
     max_outstanding_requests := 1;
     time_between_requests := 1;
     ok_status_codes := [200];
     stop_on_first_fail := true;
     arg_disable_bar := true;
     attempts := 1 |}.

Definition stop_shared : SharedMemory :=
  {| lock := false; done := 0; success := 0; fail := 0; total := 2;
     should_stop := false; disable_bar := true |}.

(** The first call fails at once.  The canceler sees the stop flag and
    releases its permit, the consumer finds the queue empty and returns.
    A second later the producer is_admission the second task, which nobody
    takes. *)
Definition stop_schedule : list Label :=
  [LProducer; LConsumer 0; LConsumer 0; LResponse 0 (Raised refused);
   LConsumer 0; LConsumer 0; LConsumer 0;
   LTick (1 # 10); LCanceler; LCanceler; LCanceler;
   LConsumer 0; LConsumer 0;
   LTick (2 # 10); LUpdater; LUpdater; LUpdater; LUpdater;
   LTick (7 # 10); LProducer; LProducer;
   LTick 1; LProducer; LProducer].

(** * Further vocabulary *)

(** The task a transition takes from the work queue and hands to
    [session.request], if it does. *)
Definition request_of (l : Label) (s : State) : option (gmap string PyVal) :=
  match l with
  | LConsumer i =>
      match consumers s !! i, get_nowait (source_queue s) with
      | Some CAcquired, Some (config, _) => Some config
      | _, _ => None
      end
  | _ => None
  end.

(** The task descriptors passed to the collaborator in a run, in the order
    in which the calls start. *)
Fixpoint requests (a : Args) (schedule : list Label) (s : State)
    : list (gmap string PyVal) :=
  match schedule with
  | [] => []
  | l :: schedule' =>
      match step a l s with
      | Ok s' =>
          match request_of l s with
          | Some config => config :: requests a schedule' s'
          | None => requests a schedule' s'
          end
      | _ => []
      end
  end.

(** The tasks still to be taken: those in the work queue, then those the
    producer has not enqueued yet. *)
Definition upcoming (s : State) : list (gmap string PyVal) :=
  source_queue s ++
  match producer_pc s with
  | PPut item rest _ => item :: rest
  | PSleep _ rest _ => rest
  | _ => []
  end.

(** More program counters to count. *)
Definition at_acquired (pc : ConsumerPc) : bool :=
  match pc with CAcquired => true | _ => false end.

Definition at_increment_fail (pc : ConsumerPc) : bool :=
  match pc with CIncrementFail => true | _ => false end.

Definition at_set_should_stop (pc : ConsumerPc) : bool :=
  match pc with CSetShouldStop => true | _ => false end.

Definition canceler_returned (pc : CancelerPc) : bool :=
  match pc with KReturned => true | _ => false end.

(** The records of a list that the consumer's condition classifies as
    failures. *)
Definition is_failure_record (ok_status_codes : list Z)
    (response : gmap string PyVal) : bool :=
  match is_failure response ok_status_codes with
  | Ok true => true
  | _ => false
  end.

Fixpoint failures (ok_status_codes : list Z) (records : list (gmap string PyVal)) : Z :=
  match records with
  | [] => 0
  | response :: records' =>
      (if is_failure_record ok_status_codes response then 1 else 0)
      + failures ok_status_codes records'
  end.

(** Permits, the stop flag and the updater: what holds in every state
    besides [Inv]. *)
Record Inv2 (a : Args) (s : State) : Prop := {
  inv_permits :
    Z.of_nat (source_semaphore s) + count at_acquired (consumers s)
    + count consumer_returned (consumers s)
    = Z.of_nat (length (source_queue s))
      + (if canceler_returned (canceler_pc s)
         then Z.of_nat (length (consumers s)) else 0);
  inv_none_returned :
    canceler_returned (canceler_pc s) = false ->
    count consumer_returned (consumers s) = 0;
  inv_set_stop :
    1 <= count at_set_should_stop (consumers s) ->
    stop_on_first_fail a = true /\ 1 <= fail (shared s);
  inv_stop_cause :
    should_stop (shared s) = true ->
    stop_on_first_fail a = true /\ 1 <= fail (shared s);
  inv_failures :
    fail (shared s) + count at_increment_fail (consumers s)
    = failures (ok_status_codes a) (sink_queue s);
  inv_updater_is_done :
    updater_pc s = UGetShouldStop true ->
    done (shared s) = n_configs a /\ total (shared s) = n_configs a;
  inv_updater :
    updater_pc s = UReturned ->
    (should_stop (shared s) = true \/ done (shared s) = n_configs a)
    /\ (arg_disable_bar a = true \/ n_configs a <> 0)
}.

Definition is_tick (l : Label) : bool :=
  match l with LTick _ => true | _ => false end.

(** A source without items, the progress bar on. *)
Definition empty_args (has_len : bool) : Args :=
  {| configs := []; configs_has_len := has_len;
     max_outstanding_requests := 1; time_between_requests := 0;
     ok_status_codes := [200]; stop_on_first_fail := false;
     arg_disable_bar := false; attempts := 1 |}.


(** The clock against the sleeps: what the program counters say about
    the time that has passed since the start, for a pause [d] between
    requests. *)
Definition producer_clock (d : Q) (n : Z) (t : Q) (pc : ProducerPc) : Prop :=
  match pc with
  | PPut _ _ total => (inject_Z (total - 1) * d <= t)%Q
  | PSleep wake _ total => (inject_Z total * d <= wake)%Q
  | PSetTotal total => (inject_Z total * d <= t)%Q
  | PReturned => (inject_Z n * d <= t)%Q
  end.

Definition canceler_clock (t : Q) (pc : CancelerPc) : Prop :=
  match pc with
  | KSleep wake => (1 # 10 <= wake)%Q
  | _ => (1 # 10 <= t)%Q
  end.

Definition updater_clock (t : Q) (pc : UpdaterPc) : Prop :=
  match pc with
  | USleep wake => (3 # 10 <= wake)%Q
  | _ => (3 # 10 <= t)%Q
  end.

Record Inv3 (a : Args) (s : State) : Prop := {
  inv_now : (0 <= now s)%Q;
  inv_producer_clock :
    producer_clock (time_between_requests a) (n_configs a) (now s) (producer_pc s);
  inv_canceler_clock : canceler_clock (now s) (canceler_pc s);
  inv_updater_clock : updater_clock (now s) (updater_pc s)
}.

(** The [SharedMemory] that [async_sparp] creates, when creating it does
    not raise. *)
Definition init_shared (a : Args) : SharedMemory :=
  {| lock := false; done := 0; success := 0; fail := 0;
     total := if configs_has_len a then Z.of_nat (length (configs a)) else -1;
     should_stop := false;
     disable_bar := arg_disable_bar a |}.

(** The outcome record a transition makes of an answer of the
    collaborator, if it is one. *)
Definition answer_of (l : Label) (s : State) : option (gmap string PyVal) :=
  match l with
  | LResponse i call =>
      match consumers s !! i with
      | Some (CRequest _) => Some (consumer_try call)
      | _ => None
      end
  | _ => None
  end.

(** The outcome records of the answers the collaborator gives in a run,
    in the order of the answers. *)
Fixpoint answers (a : Args) (schedule : list Label) (s : State)
    : list (gmap string PyVal) :=
  match schedule with
  | [] => []
  | l :: schedule' =>
      match step a l s with
      | Ok s' =>
          match answer_of l s with
          | Some response => response :: answers a schedule' s'
          | None => answers a schedule' s'
          end
      | _ => []
      end
  end.

(** The record a consumer is about to put into the sink. *)
Definition to_put (pc : ConsumerPc) : option (gmap string PyVal) :=
  match pc with
  | CSinkPut response => Some response
  | _ => None
  end.

Definition pending (l : list ConsumerPc) : list (gmap string PyVal) :=
  omap to_put l.

(** * The trace hooks and the progress bar *)

(** The context aiohttp hands to the trace hooks of one request:
    [trace_request_ctx], in which the retrying client passes the number of
    the attempt, and the [start] attribute, which [on_request_start]
    sets. *)
Record TraceCtx : Type := {
  trace_request_ctx : gmap string Z;
  start : option Q
}.

(** The text of the [print] in [on_request_start]. *)
Definition retry_message (current_attempt attempts_left : Z) : string :=
  "Retrying request, attempt number " +:+ pretty current_attempt
  +:+ ", only " +:+ pretty attempts_left +:+ " attempt(s) left".

(** [current_attempt > 1 and attempts_left <= 2] *)
Definition announces (attempts current_attempt : Z) : bool :=
  (1 <? current_attempt) && (attempts - current_attempt <=? 2).

(** The hook [generate_on_request_start(attempts)] returns, called when
    the clock of the loop reads [t]: what it prints, if anything, and the
    context it leaves. *)
Definition generate_on_request_start (attempts : Z) (t : Q) (ctx : TraceCtx)
    : Result (option string * TraceCtx) :=
  match trace_request_ctx ctx !! "current_attempt" with
  | None => Raise (KeyError "current_attempt")
  | Some current_attempt =>
      let attempts_left := attempts - current_attempt in
      let printed :=
        if announces attempts current_attempt
        then Some (retry_message current_attempt attempts_left)
        else None in
      Ok (printed,
          {| trace_request_ctx := trace_request_ctx ctx; start := Some t |})
  end.

(** The string [c], [range(n)] times in a row: the [join] of
    [print_counter]. *)
Definition py_repeat (c : string) (n : Z) : string :=
  String.concat EmptyString (replicate (Z.to_nat n) c).

(** [s[:-1]] *)
Definition drop_last (s : string) : string :=
  substring 0 (String.length s - 1) s.

(** The bar [print_counter] draws between the brackets, for the [percent]
    it has computed: [full] with its last character replaced by [">"],
    then [empty]. *)
Definition bar (percent cols : Z) : string :=
  let remainder := cols - percent in
  let full := py_repeat "=" percent in
  let empty := py_repeat " " remainder in
  let full := drop_last full +:+ ">" in
  full +:+ empty.
(** * Proofs *)

(** ** Counting *)

Lemma count_nonneg f l : 0 <= count f l.
Proof. induction l as [|pc l IH]; simpl; [lia | destruct (f pc); lia]. Qed.

Lemma count_le_length f l : count f l <= Z.of_nat (length l).
Proof. induction l as [|pc l IH]; simpl; [lia | destruct (f pc); lia]. Qed.

Lemma count_insert f (l : list ConsumerPc) i pc pc' :
  l !! i = Some pc ->
  count f (<[i := pc']> l)
  = count f l - (if f pc then 1 else 0) + (if f pc' then 1 else 0).
Proof.
  revert i; induction l as [|x l IH]; intros [|i] Hi; simpl in *; try discriminate.
  - injection Hi as ->. lia.
  - rewrite (IH i Hi). lia.
Qed.

Lemma count_lookup f (l : list ConsumerPc) i pc :
  l !! i = Some pc -> f pc = true -> 1 <= count f l.
Proof.
  intros Hi Hf. revert i Hi.
  induction l as [|x l IH]; intros [|i] Hi; simpl in *; try discriminate.
  - injection Hi as ->. rewrite Hf. pose proof (count_nonneg f l). lia.
  - specialize (IH i Hi). destruct (f x); lia.
Qed.

Lemma count_replicate f k pc :
  count f (replicate k pc) = if f pc then Z.of_nat k else 0.
Proof.
  induction k as [|k IH]; simpl replicate; simpl count.
  - now destruct (f pc).
  - rewrite IH. destruct (f pc); lia.
Qed.

Lemma count_forallb f g l :
  (forall pc, g pc = true -> f pc = false) ->
  forallb g l = true -> count f l = 0.
Proof.
  intros Hfg. induction l as [|pc l IH]; simpl; [easy|].
  intros [Hpc Hl]%andb_prop. rewrite (Hfg pc Hpc), (IH Hl). lia.
Qed.

(** ** The drain *)

Lemma empty_full_queue_loop_app {A : Type} (queue results : list A) :
  empty_full_queue_loop queue results = results ++ queue.
Proof.
  revert results. induction queue as [|item queue IH]; intros results; simpl.
  - now rewrite app_nil_r.
  - rewrite IH, <- app_assoc. reflexivity.
Qed.

Lemma empty_full_queue_all {A : Type} (queue : list A) :
  empty_full_queue queue = queue.
Proof. unfold empty_full_queue. now rewrite empty_full_queue_loop_app. Qed.

(** ** The methods of [SharedMemory] and the primitives *)

Lemma set_total_Ok new_total sh r :
  set_total new_total sh = Ok r ->
  lock sh = false /\
  r = (tt, {| lock := false; done := done sh; success := success sh;
              fail := fail sh;
              total := if total sh =? -1 then new_total else total sh;
              should_stop := should_stop sh;
              disable_bar := disable_bar sh |}).
Proof.
  unfold set_total, with_lock. destruct sh as [lk d su fa t st db]; simpl.
  destruct lk; [discriminate|]. destruct (t =? -1); simpl; intros [= <-]; auto.
Qed.

Lemma check_done_Ok sh r :
  check_done sh = Ok r ->
  lock sh = false /\ r = (total sh =? done sh, sh).
Proof.
  unfold check_done, with_lock. destruct sh as [lk d su fa t st db]; simpl.
  destruct lk; [discriminate|]. intros [= <-]; auto.
Qed.

Lemma get_should_stop_Ok sh r :
  get_should_stop sh = Ok r ->
  lock sh = false /\ r = (should_stop sh, sh).
Proof.
  unfold get_should_stop, with_lock. destruct sh as [lk d su fa t st db]; simpl.
  destruct lk; [discriminate|]. intros [= <-]; auto.
Qed.

Lemma set_should_stop_Ok sh r :
  set_should_stop sh = Ok r ->
  lock sh = false /\
  r = (tt, {| lock := false; done := done sh; success := success sh;
              fail := fail sh; total := total sh; should_stop := true;
              disable_bar := disable_bar sh |}).
Proof.
  unfold set_should_stop, with_lock. destruct sh as [lk d su fa t st db]; simpl.
  destruct lk; [discriminate|]. intros [= <-]; auto.
Qed.

Lemma update_Ok sh r :
  update sh = Ok r -> lock sh = false /\ r = (tt, sh).
Proof.
  unfold update, with_lock, print_unless_disabled, print_counter.
  destruct sh as [lk d su fa t st db]; simpl.
  destruct lk; [discriminate|].
  destruct db; simpl; [intros [= <-]; auto|].
  destruct (t =? -1); simpl; [intros [= <-]; auto|].
  destruct (t =? 0); simpl; [discriminate | intros [= <-]; auto].
Qed.

Lemma increment_success_Ok sh r :
  increment_success sh = Ok r ->
  lock sh = false /\
  r = (tt, {| lock := false; done := done sh + 1; success := success sh + 1;
              fail := fail sh; total := total sh;
              should_stop := should_stop sh;
              disable_bar := disable_bar sh |}).
Proof.
  unfold increment_success, with_lock, print_unless_disabled, print_counter.
  destruct sh as [lk d su fa t st db]; simpl.
  destruct lk; [discriminate|].
  destruct db; simpl; [intros [= <-]; auto|].
  destruct (t =? -1); simpl; [intros [= <-]; auto|].
  destruct (t =? 0); simpl; [discriminate | intros [= <-]; auto].
Qed.

Lemma increment_fail_Ok sh r :
  increment_fail sh = Ok r ->
  lock sh = false /\
  r = (tt, {| lock := false; done := done sh + 1; success := success sh;
              fail := fail sh + 1; total := total sh;
              should_stop := should_stop sh;
              disable_bar := disable_bar sh |}).
Proof.
  unfold increment_fail, with_lock, print_unless_disabled, print_counter.
  destruct sh as [lk d su fa t st db]; simpl.
  destruct lk; [discriminate|].
  destruct db; simpl; [intros [= <-]; auto|].
  destruct (t =? -1); simpl; [intros [= <-]; auto|].
  destruct (t =? 0); simpl; [discriminate | intros [= <-]; auto].
Qed.

Lemma acquire_Ok value value' : acquire value = Ok value' -> value = S value'.
Proof. destruct value; simpl; [discriminate | now intros [= ->]]. Qed.

Lemma get_nowait_Some {A : Type} (queue : list A) item queue' :
  get_nowait queue = Some (item, queue') -> queue = item :: queue'.
Proof. destruct queue; simpl; [discriminate | now intros [= -> ->]]. Qed.

Lemma get_nowait_None {A : Type} (queue : list A) :
  get_nowait queue = None -> queue = [].
Proof. now destruct queue. Qed.

Lemma release_iter k value : Nat.iter k release value = (value + k)%nat.
Proof. induction k as [|k IH]; simpl; [lia | rewrite IH; unfold release; lia]. Qed.

(** ** Inverting a step *)

Ltac method_Ok :=
  repeat match goal with
  | E : set_total _ _ = Ok _ |- _ => apply set_total_Ok in E as [? ?]
  | E : check_done _ = Ok _ |- _ => apply check_done_Ok in E as [? ?]
  | E : get_should_stop _ = Ok _ |- _ => apply get_should_stop_Ok in E as [? ?]
  | E : set_should_stop _ = Ok _ |- _ => apply set_should_stop_Ok in E as [? ?]
  | E : update _ = Ok _ |- _ => apply update_Ok in E as [? ?]
  | E : increment_success _ = Ok _ |- _ => apply increment_success_Ok in E as [? ?]
  | E : increment_fail _ = Ok _ |- _ => apply increment_fail_Ok in E as [? ?]
  | E : acquire _ = Ok _ |- _ => apply acquire_Ok in E
  | E : get_nowait _ = Some _ |- _ => apply get_nowait_Some in E
  | E : get_nowait _ = None |- _ => apply get_nowait_None in E
  end.

(** [step_inv H] splits [H : step a l s = Ok s'] into the 21 transitions
    of the coroutines and replaces [s'] by the state each one builds. *)
Ltac step_inv H :=
  unfold step, producer, canceler, updater, consumer, consumer_response in H;
  repeat (match type of H with
          | match ?x with _ => _ end = Ok _ => destruct x eqn:?
          | mbind _ ?m = Ok _ => destruct m eqn:?; cbn [mbind Result_bind] in H
          | (let _ := _ in _) = Ok _ => cbv zeta in H
          end; try discriminate H);
  injection H as <-; method_Ok; simplify_eq.

Ltac subst_pc :=
  repeat match goal with
  | E : producer_pc _ = _ |- _ => rewrite E in *; clear E
  | E : canceler_pc _ = _ |- _ => rewrite E in *; clear E
  | E : updater_pc _ = _ |- _ => rewrite E in *; clear E
  end.

(** ** The invariant holds in every reachable state *)

Section Invariant.

Variable a : Args.

Lemma n_configs_nonneg : 0 <= n_configs a.
Proof. unfold n_configs. lia. Qed.

Lemma produced_le pc :
  producer_ok (n_configs a) pc -> produced (n_configs a) pc <= n_configs a.
Proof. destruct pc; simpl; lia. Qed.

Lemma Inv_init sh :
  SharedMemory_init
    (if configs_has_len a then n_configs a else -1) (arg_disable_bar a) = Ok sh ->
  Inv a (async_main_init a sh).
Proof.
  unfold SharedMemory_init. cbv zeta.
  destruct (print_unless_disabled _); cbn [mbind Result_bind]; try discriminate.
  intros [= <-].
  split; simpl; try rewrite count_replicate; simpl; try lia; try discriminate.
  - unfold n_configs. destruct (configs a); simpl; lia.
  - unfold n_configs. destruct (configs a); simpl; lia.
  - destruct (configs_has_len a), (configs a); reflexivity.
  - now rewrite length_replicate.
  - reflexivity.
  - apply Forall_replicate. exact I.
  - constructor.
Qed.

Lemma Inv_step l s s' : Inv a s -> step a l s = Ok s' -> Inv a s'.
Proof.
  intros [Hlock Hsum Hsu Hfa Hsink Hprod Hwork Htot Hdone Hcan Hpool Hbar
          Hbpc Hbsink] H.
  pose proof (produced_le _ Hprod) as Hle.
  pose proof (count_nonneg holding (consumers s)) as Hh.
  pose proof (count_nonneg counting (consumers s)) as Hc.
  pose proof n_configs_nonneg as Hn.
  step_inv H; subst_pc.
  all: try match goal with
       | E : consumers _ !! _ = Some _ |- _ =>
           pose proof (count_lookup holding _ _ _ E);
           pose proof (count_lookup counting _ _ _ E);
           pose proof (Forall_lookup_1 _ _ _ _ Hbpc E)
       end.
  all: try match goal with E : source_queue _ = _ |- _ => rewrite E in Hwork end.
  all: try match goal with |- context [producer_for ?r _] => destruct r end.
  all: try match goal with
       | |- context [if ?b then CIncrementFail else _] => destruct b
       end.
  all: try destruct (stop_on_first_fail a).
  all: split; simpl in *; unfold put;
       rewrite ?length_app, ?length_insert; simpl;
       try (erewrite count_insert by eassumption; simpl);
       repeat match goal with
       | H : ?x = ?x -> _ |- _ => specialize (H eq_refl)
       end;
       try assumption; try reflexivity; try lia; try discriminate.
  all: try (apply Forall_insert; [assumption | simpl; unfold built; eauto]).
  all: try (apply Forall_app; split; [assumption | now repeat constructor]).
  all: try (destruct (configs_has_len a); simpl in *;
            destruct (Z.eqb_spec (total (shared s)) (-1)); lia).
  all: try (intros [= E%Z.eqb_eq];
            destruct (configs_has_len a || producer_returned (producer_pc s));
            lia).
  all: try (intros _; destruct is_done; simpl in *;
            [right; now apply Hdone | now left]).
  all: try (intros E; specialize (Hdone E); lia).
  all: try (intros E; destruct (Hcan E); [now left | lia]).
  all: try (intros E; destruct (Hdone E); split; [lia|];
            destruct (Z.eqb_spec (total (shared s)) (-1)); lia).
  all: match goal with E : source_queue _ = _ |- _ => rewrite E; simpl; lia end.
Qed.

Theorem reachable_Inv s : reachable a s -> Inv a s.
Proof.
  induction 1 as [sh Hatt Hinit | s l s' _ IH Hstep].
  - now apply Inv_init.
  - exact (Inv_step l s s' IH Hstep).
Qed.

Lemma run_reachable schedule s s' :
  reachable a s -> run a schedule s = Ok s' -> reachable a s'.
Proof.
  revert s. induction schedule as [|l schedule IH]; intros s Hs; simpl.
  - now intros [= <-].
  - destruct (step a l s) as [s1| |e] eqn:E; cbn [mbind Result_bind];
      try discriminate.
    apply IH. exact (reachable_step a s l s1 Hs E).
Qed.

End Invariant.

(** * The claims *)

(** ** Counters *)

Lemma all_returned_consumers s :
  all_returned s = true -> forallb consumer_returned (consumers s) = true.
Proof.
  unfold all_returned.
  destruct (producer_pc s), (canceler_pc s), (updater_pc s); try discriminate.
  auto.
Qed.

Lemma all_returned_pcs s :
  all_returned s = true ->
  producer_pc s = PReturned /\ canceler_pc s = KReturned /\ updater_pc s = UReturned.
Proof.
  unfold all_returned.
  destruct (producer_pc s), (canceler_pc s), (updater_pc s); try discriminate.
  auto.
Qed.

(** C1, as the code has it.  In every state of every run
    [done == success + fail], and [done <= total] once [total] is known;
    [increment_success] and [increment_fail] add one to [done] and to
    exactly one of [success] and [fail] while they hold the lock; when
    [asyncio.gather] has returned, [done] is the length of the list
    [empty_full_queue] returns, and [done == total] unless the stop flag
    was raised. *)
Theorem C1_counter_consistency a s :
  reachable a s ->
  done (shared s) = success (shared s) + fail (shared s)
  /\ (total (shared s) <> -1 -> done (shared s) <= total (shared s))
  /\ (forall sh sh',
        increment_success sh = Ok (tt, sh') ->
        lock sh = false /\ lock sh' = false /\ done sh' = done sh + 1 /\
        success sh' = success sh + 1 /\ fail sh' = fail sh)
  /\ (forall sh sh',
        increment_fail sh = Ok (tt, sh') ->
        lock sh = false /\ lock sh' = false /\ done sh' = done sh + 1 /\
        success sh' = success sh /\ fail sh' = fail sh + 1)
  /\ (all_returned s = true ->
        done (shared s) = Z.of_nat (length (empty_full_queue (sink_queue s)))
        /\ (should_stop (shared s) = false ->
            done (shared s) = total (shared s))).
Proof.
  intros Hs. destruct (reachable_Inv a s Hs) as
    [Hlock Hsum Hsu Hfa Hsink Hprod Hwork Htot Hdone Hcan Hpool Hbar _ _].
  pose proof (produced_le _ _ Hprod) as Hle.
  pose proof (count_nonneg holding (consumers s)) as Hh.
  split; [exact Hsum|].
  split.
  { intros Hknown. rewrite Htot in *.
    destruct (configs_has_len a || producer_returned (producer_pc s)); lia. }
  split.
  { intros sh sh' E. apply increment_success_Ok in E as [Hl [= ->]].
    simpl. auto. }
  split.
  { intros sh sh' E. apply increment_fail_Ok in E as [Hl [= ->]].
    simpl. auto. }
  intros Hret. split.
  - rewrite empty_full_queue_all, Hsink.
    rewrite (count_forallb counting consumer_returned); [lia | | ].
    + now intros [].
    + now apply all_returned_consumers.
  - intros Hstop. destruct (all_returned_pcs s Hret) as (Hp & Hk & _).
    rewrite Htot, Hp, orb_true_r.
    destruct (Hcan Hk) as [E|E]; [congruence | exact E].
Qed.

Lemma C1_counter_consistency_witness :
  let s := state_after pair_args pair_shared pair_schedule in
  reachable pair_args s /\
  all_returned s = true /\
  should_stop (shared s) = false /\
  done (shared s) = success (shared s) + fail (shared s) /\
  done (shared s) = Z.of_nat (length (empty_full_queue (sink_queue s))) /\
  done (shared s) = total (shared s).
Proof.
  intros s.
  assert (Hs : reachable pair_args s).
  { apply (run_reachable pair_args pair_schedule
             (async_main_init pair_args pair_shared)).
    - apply reachable_init; reflexivity.
    - vm_compute. reflexivity. }
  assert (Hret : all_returned s = true) by (vm_compute; reflexivity).
  assert (Hstop : should_stop (shared s) = false) by (vm_compute; reflexivity).
  destruct (C1_counter_consistency pair_args s Hs) as (H1 & _ & _ & _ & H5).
  destruct (H5 Hret) as [H6 H7].
  repeat split; auto.
Defined.

(** The claim fails as it is stated: with [stop_on_first_fail] a run ends
    with [total] known (2) and [done] below it (1). *)
Lemma C1_counterexample :
  let s := state_after stop_args stop_shared stop_schedule in
  reachable stop_args s /\
  all_returned s = true /\
  total (shared s) = 2 /\
  done (shared s) = 1 /\
  done (shared s) <> total (shared s).
Proof.
  intros s.
  split; [|vm_compute; repeat split; congruence].
  apply (run_reachable stop_args stop_schedule
           (async_main_init stop_args stop_shared)).
  - apply reachable_init; reflexivity.
  - vm_compute. reflexivity.
Qed.

(** ** Concurrency ceiling *)

Lemma step_enters_request a l s s' i config :
  step a l s = Ok s' ->
  consumers s' !! i = Some (CRequest config) ->
  consumers s !! i = Some (CRequest config)
  \/ (l = LConsumer i /\ consumers s !! i = Some CAcquired /\
      exists queue, source_queue s = config :: queue).
Proof.
  intros H Hi. step_inv H; simpl in *; try (left; assumption).
  all: apply list_lookup_insert_Some in Hi as [(-> & E & Hlt)|(Hne & Hi)];
         [|left; assumption].
  all: try match type of E with (if ?b then _ else _) = _ => destruct b end.
  all: try discriminate E.
  injection E as ->. right. eauto.
Qed.

Lemma step_takes_permit a l s s' i :
  step a l s = Ok s' ->
  consumers s' !! i = Some CAcquired ->
  consumers s !! i = Some CAcquired
  \/ (l = LConsumer i /\ consumers s !! i = Some CAcquire /\
      source_semaphore s = S (source_semaphore s')).
Proof.
  intros H Hi. step_inv H; simpl in *; try (left; assumption).
  all: apply list_lookup_insert_Some in Hi as [(-> & E & Hlt)|(Hne & Hi)];
         [|left; assumption].
  all: try match type of E with (if ?b then _ else _) = _ => destruct b end.
  all: try discriminate E.
  right. auto.
Qed.

(** C2.  With [max_outstanding_requests = k >= 1] there are exactly [k]
    consumers in every state of every run, so at most [k] calls of the
    collaborator are in flight at once; a consumer enters a call only from
    the state in which it holds a permit and takes the task from the work
    queue, and it gets into that state only by taking one permit from the
    semaphore. *)
Theorem C2_concurrency_ceiling a s :
  1 <= max_outstanding_requests a ->
  reachable a s ->
  Z.of_nat (length (consumers s)) = max_outstanding_requests a
  /\ count in_flight (consumers s) <= max_outstanding_requests a
  /\ (forall l s' i config,
        step a l s = Ok s' ->
        consumers s' !! i = Some (CRequest config) ->
        consumers s !! i = Some (CRequest config)
        \/ (l = LConsumer i /\ consumers s !! i = Some CAcquired /\
            exists queue, source_queue s = config :: queue))
  /\ (forall l s' i,
        step a l s = Ok s' ->
        consumers s' !! i = Some CAcquired ->
        consumers s !! i = Some CAcquired
        \/ (l = LConsumer i /\ consumers s !! i = Some CAcquire /\
            source_semaphore s = S (source_semaphore s'))).
Proof.
  intros Hk Hs. pose proof (inv_pool a s (reachable_Inv a s Hs)) as Hpool.
  assert (Hlen : Z.of_nat (length (consumers s)) = max_outstanding_requests a)
    by (rewrite Hpool; lia).
  split; [exact Hlen|].
  split; [rewrite <- Hlen; apply count_le_length|].
  split.
  - intros l s' i config. apply step_enters_request.
  - intros l s' i. apply step_takes_permit.
Qed.

Lemma C2_concurrency_ceiling_witness :
  let s := state_after pair_args pair_shared pair_both_in_flight in
  1 <= max_outstanding_requests pair_args /\
  reachable pair_args s /\
  count in_flight (consumers s) = 2 /\
  Z.of_nat (length (consumers s)) = max_outstanding_requests pair_args /\
  count in_flight (consumers s) <= max_outstanding_requests pair_args.
Proof.
  intros s.
  assert (Hk : 1 <= max_outstanding_requests pair_args) by (simpl; lia).
  assert (Hs : reachable pair_args s).
  { apply (run_reachable pair_args pair_both_in_flight
             (async_main_init pair_args pair_shared)).
    - apply reachable_init; reflexivity.
    - vm_compute. reflexivity. }
  destruct (C2_concurrency_ceiling pair_args s Hk Hs) as (H1 & H2 & _).
  repeat split; auto.
Defined.

(** ** Outcome records and their classification *)

Lemma py_in_VInt z (l : list Z) : py_in (VInt z) l = true <-> z ∈ l.
Proof.
  unfold py_in. rewrite existsb_exists, list_elem_of_In. simpl. split.
  - intros (x & Hx & E%Z.eqb_eq). now subst.
  - intros Hz. exists z. split; [assumption | apply Z.eqb_refl].
Qed.

Lemma py_in_VInt_false z (l : list Z) : py_in (VInt z) l = false <-> z ∉ l.
Proof.
  rewrite <- py_in_VInt. destruct (py_in (VInt z) l); split; congruence.
Qed.

Lemma consumer_try_raised call e :
  raised call = Some e -> consumer_try call = error_response e.
Proof.
  destruct call as [r|e']; simpl; [|now intros [= ->]].
  destruct (text r); [|now intros [= ->]].
  destruct (elapsed r); [discriminate | now intros [= ->]].
Qed.

Lemma consumer_try_returned r t el :
  text r = Returned t -> elapsed r = Returned el ->
  consumer_try (Returned r)
  = {[ "text" := VStr t;
       "status_code" := VInt (status r);
       "json" := match json r with
                 | Returned j => j
                 | Raised e => VStr ("Failed to decode json due to " +:+ exn_str e)
                 end;
       "elapsed" := el ]}.
Proof. intros Ht Hel. simpl. now rewrite Ht, Hel. Qed.

Lemma raised_None call :
  raised call = None ->
  exists r t el, call = Returned r /\ text r = Returned t /\ elapsed r = Returned el.
Proof.
  destruct call as [r|e]; simpl; [|discriminate].
  destruct (text r) as [t|] eqn:Ht; [|discriminate].
  destruct (elapsed r) as [el|] eqn:Hel; [|discriminate].
  intros _. now exists r, t, el.
Qed.

Lemma is_failure_error e ok : is_failure (error_response e) ok = Ok true.
Proof. reflexivity. Qed.

Lemma is_failure_returned (t : string) (st : Z) (j el : PyVal) ok :
  is_failure
    {[ "text" := VStr t; "status_code" := VInt st; "json" := j; "elapsed" := el ]}
    ok
  = Ok (negb (py_in (VInt st) ok)).
Proof. reflexivity. Qed.

(** How the outer [try] ended decides the classification: failure when it
    raised, otherwise by the status code alone. *)
Lemma is_failure_consumer_try call ok :
  is_failure (consumer_try call) ok
  = Ok match raised call, call with
       | None, Returned r => negb (py_in (VInt (status r)) ok)
       | _, _ => true
       end.
Proof.
  destruct (raised call) as [e|] eqn:E.
  - now rewrite (consumer_try_raised call e E), is_failure_error.
  - destruct (raised_None call E) as (r & t & el & -> & Ht & Hel).
    now rewrite (consumer_try_returned r t el Ht Hel), is_failure_returned.
Qed.

Lemma built_has_key response :
  built response ->
  is_Some (response !! "error_message") \/ is_Some (response !! "status_code").
Proof.
  intros [call ->]. destruct (raised call) as [e|] eqn:E.
  - left. rewrite (consumer_try_raised call e E). now eexists.
  - right. destruct (raised_None call E) as (r & t & el & -> & Ht & Hel).
    rewrite (consumer_try_returned r t el Ht Hel). now eexists.
Qed.

Lemma increment_fail_runs sh :
  lock sh = false -> disable_bar sh = true \/ total sh <> 0 ->
  increment_fail sh
  = Ok (tt, {| lock := false; done := done sh + 1; success := success sh;
               fail := fail sh + 1; total := total sh;
               should_stop := should_stop sh;
               disable_bar := disable_bar sh |}).
Proof.
  unfold increment_fail, with_lock, print_unless_disabled, print_counter.
  destruct sh as [lk d su fa t st db]; simpl. intros -> Hbar.
  destruct db; simpl; [reflexivity|].
  destruct (t =? -1); simpl; [reflexivity|].
  destruct (Z.eqb_spec t 0); simpl; [|reflexivity].
  destruct Hbar; [discriminate | contradiction].
Qed.

Lemma increment_success_runs sh :
  lock sh = false -> disable_bar sh = true \/ total sh <> 0 ->
  increment_success sh
  = Ok (tt, {| lock := false; done := done sh + 1; success := success sh + 1;
               fail := fail sh; total := total sh;
               should_stop := should_stop sh;
               disable_bar := disable_bar sh |}).
Proof.
  unfold increment_success, with_lock, print_unless_disabled, print_counter.
  destruct sh as [lk d su fa t st db]; simpl. intros -> Hbar.
  destruct db; simpl; [reflexivity|].
  destruct (t =? -1); simpl; [reflexivity|].
  destruct (Z.eqb_spec t 0); simpl; [|reflexivity].
  destruct Hbar; [discriminate | contradiction].
Qed.

(** While a consumer holds a task, [total] is not zero, so the progress
    bar can be printed. *)
Lemma holding_total_nonzero a s i pc :
  Inv a s -> consumers s !! i = Some pc -> holding pc = true ->
  total (shared s) <> 0.
Proof.
  intros [_ Hsum Hsu Hfa _ Hprod Hwork Htot _ _ _ _ _ _] Hi Hpc.
  pose proof (count_lookup holding _ _ _ Hi Hpc).
  pose proof (produced_le _ _ Hprod).
  rewrite Htot.
  destruct (configs_has_len a || producer_returned (producer_pc s)); lia.
Qed.

(** The transitions of a consumer, one by one. *)

Lemma lookup_set_consumer i pc s :
  (i < length (consumers s))%nat -> consumers (set_consumer i pc s) !! i = Some pc.
Proof. intros Hlt. simpl. now apply list_lookup_insert_eq. Qed.

Lemma step_response a s i config call :
  consumers s !! i = Some (CRequest config) ->
  step a (LResponse i call) s
  = Ok (set_consumer i (CSinkPut (consumer_try call)) s).
Proof. intros Hi. simpl. unfold consumer_response. now rewrite Hi. Qed.

Lemma step_sink_put a s i response failed :
  consumers s !! i = Some (CSinkPut response) ->
  is_failure response (ok_status_codes a) = Ok failed ->
  step a (LConsumer i) s
  = Ok (set_consumer i (if failed then CIncrementFail else CIncrementSuccess)
          (set_sink_queue (put (sink_queue s) response) s)).
Proof.
  intros Hi Hf. simpl. unfold consumer. rewrite Hi. cbv zeta. now rewrite Hf.
Qed.

Lemma step_increment_fail a s i :
  consumers s !! i = Some CIncrementFail ->
  lock (shared s) = false ->
  disable_bar (shared s) = true \/ total (shared s) <> 0 ->
  step a (LConsumer i) s
  = Ok (set_consumer i
          (if stop_on_first_fail a then CSetShouldStop else CAcquire)
          (set_shared
             {| lock := false; done := done (shared s) + 1;
                success := success (shared s);
                fail := fail (shared s) + 1; total := total (shared s);
                should_stop := should_stop (shared s);
                disable_bar := disable_bar (shared s) |} s)).
Proof.
  intros Hi Hlock Hbar. simpl. unfold consumer. rewrite Hi.
  now rewrite increment_fail_runs.
Qed.

Lemma step_increment_success a s i :
  consumers s !! i = Some CIncrementSuccess ->
  lock (shared s) = false ->
  disable_bar (shared s) = true \/ total (shared s) <> 0 ->
  step a (LConsumer i) s
  = Ok (set_consumer i CAcquire
          (set_shared
             {| lock := false; done := done (shared s) + 1;
                success := success (shared s) + 1;
                fail := fail (shared s); total := total (shared s);
                should_stop := should_stop (shared s);
                disable_bar := disable_bar (shared s) |} s)).
Proof.
  intros Hi Hlock Hbar. simpl. unfold consumer. rewrite Hi.
  now rewrite increment_success_runs.
Qed.

Lemma step_set_should_stop a s i :
  consumers s !! i = Some CSetShouldStop ->
  lock (shared s) = false ->
  step a (LConsumer i) s
  = Ok (set_consumer i CAcquire
          (set_shared
             {| lock := false; done := done (shared s);
                success := success (shared s);
                fail := fail (shared s); total := total (shared s);
                should_stop := true;
                disable_bar := disable_bar (shared s) |} s)).
Proof.
  intros Hi Hlock. simpl. unfold consumer. rewrite Hi.
  unfold set_should_stop, with_lock. now rewrite Hlock.
Qed.

(** From the sink put to the next [acquire], when nothing is scheduled in
    between. *)
Lemma consumer_counts a s i response failed :
  Inv a s ->
  consumers s !! i = Some (CSinkPut response) ->
  is_failure response (ok_status_codes a) = Ok failed ->
  exists s1 s',
    step a (LConsumer i) s = Ok s1
    /\ step a (LConsumer i) s1 = Ok s'
    /\ consumers s1 !! i
       = Some (if failed then CIncrementFail else CIncrementSuccess)
    /\ sink_queue s' = sink_queue s ++ [response]
    /\ done (shared s') = done (shared s) + 1
    /\ success (shared s')
       = (if failed then success (shared s) else success (shared s) + 1)
    /\ fail (shared s')
       = (if failed then fail (shared s) + 1 else fail (shared s))
    /\ should_stop (shared s') = should_stop (shared s)
    /\ lock (shared s') = false
    /\ consumers s' !! i
       = Some (if failed && stop_on_first_fail a then CSetShouldStop else CAcquire).
Proof.
  intros HI Hi Hf.
  pose proof (holding_total_nonzero a s i _ HI Hi eq_refl) as Htot.
  pose proof (inv_lock a s HI) as Hlock.
  pose proof (lookup_lt_Some _ _ _ Hi) as Hlt.
  destruct failed; eexists; eexists;
    (split; [exact (step_sink_put a s i response _ Hi Hf)|]).
  - split; [apply step_increment_fail; auto; now apply lookup_set_consumer|].
    split; [now apply lookup_set_consumer|].
    cbn. rewrite list_lookup_insert_eq by (now rewrite length_insert).
    repeat split.
  - split; [apply step_increment_success; auto; now apply lookup_set_consumer|].
    split; [now apply lookup_set_consumer|].
    cbn. rewrite list_lookup_insert_eq by (now rewrite length_insert).
    repeat split.
Qed.

(** The same, from the end of the call. *)
Lemma consumer_turn a s i config call failed :
  Inv a s ->
  consumers s !! i = Some (CRequest config) ->
  is_failure (consumer_try call) (ok_status_codes a) = Ok failed ->
  exists s',
    run a [LResponse i call; LConsumer i; LConsumer i] s = Ok s'
    /\ sink_queue s' = sink_queue s ++ [consumer_try call]
    /\ done (shared s') = done (shared s) + 1
    /\ success (shared s')
       = (if failed then success (shared s) else success (shared s) + 1)
    /\ fail (shared s')
       = (if failed then fail (shared s) + 1 else fail (shared s))
    /\ consumers s' !! i
       = Some (if failed && stop_on_first_fail a then CSetShouldStop else CAcquire).
Proof.
  intros HI Hi Hf.
  pose proof (step_response a s i config call Hi) as H1.
  pose proof (Inv_step a _ _ _ HI H1) as HI1.
  pose proof (lookup_lt_Some _ _ _ Hi) as Hlt.
  destruct (consumer_counts a _ i (consumer_try call) failed HI1
              (lookup_set_consumer i _ s Hlt) Hf)
    as (s1 & s' & H2 & H3 & _ & Hsink & Hdone & Hsu & Hfa & _ & _ & Hpc).
  exists s'. cbn [run]. rewrite H1. cbn [mbind Result_bind].
  rewrite H2. cbn [mbind Result_bind]. rewrite H3.
  repeat split; assumption.
Qed.

(** C3.  A consumer in a call, resumed with what the call did, appends
    one outcome record and counts it once.  If the outer [try] raised, the
    record is [{"error_message": traceback}] and [fail] is incremented.  If
    it completed, the record has [text], [status_code], [json] and
    [elapsed]; [fail] is incremented when the status code is not in
    [ok_status_codes], [success] otherwise.  [done] grows by one and the
    other counter does not move. *)
Theorem C3_outcome_classification a s i config call :
  reachable a s ->
  consumers s !! i = Some (CRequest config) ->
  exists s',
    run a [LResponse i call; LConsumer i; LConsumer i] s = Ok s'
    /\ sink_queue s' = sink_queue s ++ [consumer_try call]
    /\ done (shared s') = done (shared s) + 1
    /\ (forall e,
          raised call = Some e ->
          consumer_try call = {[ "error_message" := VStr (exn_traceback e) ]}
          /\ fail (shared s') = fail (shared s) + 1
          /\ success (shared s') = success (shared s))
    /\ (forall r t el,
          call = Returned r -> text r = Returned t -> elapsed r = Returned el ->
          consumer_try call
          = {[ "text" := VStr t;
               "status_code" := VInt (status r);
               "json" := match json r with
                         | Returned j => j
                         | Raised e =>
                             VStr ("Failed to decode json due to " +:+ exn_str e)
                         end;
               "elapsed" := el ]}
          /\ (status r ∉ ok_status_codes a ->
              fail (shared s') = fail (shared s) + 1
              /\ success (shared s') = success (shared s))
          /\ (status r ∈ ok_status_codes a ->
              success (shared s') = success (shared s) + 1
              /\ fail (shared s') = fail (shared s))).
Proof.
  intros Hs Hi.
  pose proof (is_failure_consumer_try call (ok_status_codes a)) as Hf.
  destruct (consumer_turn a s i config call _ (reachable_Inv a s Hs) Hi Hf)
    as (s' & Hrun & Hsink & Hdone & Hsu & Hfa & _).
  exists s'. split; [exact Hrun|]. split; [exact Hsink|]. split; [exact Hdone|].
  split.
  - intros e He. rewrite He in Hsu, Hfa.
    split; [exact (consumer_try_raised call e He) | auto].
  - intros r t el -> Ht Hel. simpl raised in Hsu, Hfa.
    rewrite Ht, Hel in Hsu, Hfa.
    split; [exact (consumer_try_returned r t el Ht Hel)|].
    split.
    + intros Hout%py_in_VInt_false. rewrite Hout in Hsu, Hfa. auto.
    + intros Hin%py_in_VInt. rewrite Hin in Hsu, Hfa. auto.
Qed.

Lemma C3_outcome_classification_witness :
  let s := state_after pair_args pair_shared pair_both_in_flight in
  reachable pair_args s /\
  consumers s !! 1%nat = Some (CRequest (task "b")) /\
  exists s',
    run pair_args
      [LResponse 1 (Returned (page 500)); LConsumer 1; LConsumer 1] s = Ok s'
    /\ length (sink_queue s') = 1%nat
    /\ fail (shared s') = 1 /\ success (shared s') = 0 /\ done (shared s') = 1.
Proof.
  intros s.
  assert (Hs : reachable pair_args s).
  { apply (run_reachable pair_args pair_both_in_flight
             (async_main_init pair_args pair_shared)).
    - apply reachable_init; reflexivity.
    - vm_compute. reflexivity. }
  assert (Hi : consumers s !! 1%nat = Some (CRequest (task "b")))
    by (vm_compute; reflexivity).
  destruct (C3_outcome_classification pair_args s 1 (task "b")
              (Returned (page 500)) Hs Hi)
    as (s' & Hrun & Hsink & Hdone & _ & Hret).
  destruct (Hret (page 500) "{}" (VFloat (1 # 100)) eq_refl eq_refl eq_refl)
    as (_ & Hout & _).
  assert (Hnot : status (page 500) ∉ ok_status_codes pair_args).
  { simpl. intros Hin%list_elem_of_In. simpl in Hin. lia. }
  destruct (Hout Hnot) as [Hfa Hsu].
  split; [exact Hs|]. split; [exact Hi|].
  exists s'. split; [exact Hrun|].
  split; [rewrite Hsink; reflexivity|].
  split; [rewrite Hfa; reflexivity|].
  split; [rewrite Hsu; reflexivity|].
  rewrite Hdone; reflexivity.
Defined.

(** ** Fail-fast configuration *)

(** The only exceptions a transition raises are the division by zero of
    the progress bar and the missing key of the classification. *)
Lemma step_Raise a l s e :
  step a l s = Raise e -> e = ZeroDivisionError \/ e = KeyError "status_code".
Proof.
  intros H.
  unfold step, producer, canceler, updater, consumer, consumer_response,
    set_total, check_done, get_should_stop, set_should_stop, update,
    increment_success, increment_fail, with_lock, print_unless_disabled,
    print_counter, is_failure, acquire in H.
  repeat (first
    [ discriminate H
    | injection H as H; rewrite <- H; clear H; auto
    | match type of H with
      | context [match ?x with _ => _ end] => destruct x eqn:?
      end ];
    try cbn [mbind Result_bind] in H).
Qed.

Lemma SharedMemory_init_Raise total0 disable_bar0 e :
  SharedMemory_init total0 disable_bar0 = Raise e -> e = ZeroDivisionError.
Proof.
  unfold SharedMemory_init, print_unless_disabled, print_counter. simpl.
  destruct disable_bar0; simpl; [discriminate|].
  destruct (total0 =? -1); simpl; [discriminate|].
  destruct (total0 =? 0); simpl; [now intros [= <-] | discriminate].
Qed.

Lemma run_Raise a schedule s e :
  run a schedule s = Raise e -> e = ZeroDivisionError \/ e = KeyError "status_code".
Proof.
  revert s. induction schedule as [|l schedule IH]; intros s; simpl.
  - discriminate.
  - destruct (step a l s) as [s'| |e'] eqn:E; cbn [mbind Result_bind].
    + apply IH.
    + discriminate.
    + intros [= <-]. exact (step_Raise a l s e' E).
Qed.

Lemma async_sparp_reachable a schedule results :
  async_sparp a schedule = Ok results ->
  exists s, reachable a s /\ all_returned s = true
            /\ results = empty_full_queue (sink_queue s).
Proof.
  unfold async_sparp, async_main.
  destruct (attempts a <? 1) eqn:Hatt; [discriminate|].
  cbv zeta.
  destruct (SharedMemory_init _ _) as [sh| |e] eqn:Hinit;
    cbn [mbind Result_bind]; try discriminate.
  destruct (run a schedule (async_main_init a sh)) as [s| |e] eqn:Hrun;
    cbn [mbind Result_bind]; try discriminate.
  destruct (all_returned s) eqn:Hret; cbn [mbind Result_bind]; try discriminate.
  intros [= <-]. exists s. repeat split; auto.
  apply (run_reachable a schedule (async_main_init a sh)); [|exact Hrun].
  now apply reachable_init.
Qed.

(** C4.  With [attempts < 1], [async_sparp] raises
    [ValueError("attempts should be at least 1")] under every schedule, and
    the pipeline has no state at all: nothing is enqueued, no coroutine
    starts.  With [attempts >= 1] no [ValueError] is raised. *)
Theorem C4_fail_fast_configuration a :
  (attempts a < 1 ->
     (forall schedule,
        async_sparp a schedule = Raise (ValueError "attempts should be at least 1"))
     /\ (forall s, ~ reachable a s))
  /\ (1 <= attempts a ->
      forall schedule msg, async_sparp a schedule <> Raise (ValueError msg)).
Proof.
  split.
  - intros Hatt. apply Z.ltb_lt in Hatt. split.
    + intros schedule. unfold async_sparp. now rewrite Hatt.
    + intros s Hs. induction Hs as [sh Hge _ | s l s' _ IH _]; [congruence | exact IH].
  - intros Hatt schedule msg. unfold async_sparp, async_main.
    destruct (Z.ltb_spec (attempts a) 1) as [Hlt|_]; [lia|].
    cbv zeta.
    destruct (SharedMemory_init _ _) as [sh| |e] eqn:Hinit;
      cbn [mbind Result_bind]; try discriminate.
    + destruct (run a schedule (async_main_init a sh)) as [s| |e] eqn:Hrun;
        cbn [mbind Result_bind]; try discriminate.
      * destruct (all_returned s); cbn [mbind Result_bind]; discriminate.
      * intros [= ->]. destruct (run_Raise _ _ _ _ Hrun); discriminate.
    + intros [= ->]. apply SharedMemory_init_Raise in Hinit. discriminate.
Qed.

Lemma C4_fail_fast_configuration_witness :
  let a := {| configs := [task "a"]; configs_has_len := true;
              max_outstanding_requests := 1; time_between_requests := 0;
              ok_status_codes := [200]; stop_on_first_fail := false;
              arg_disable_bar := true; attempts := 0 |} in
  attempts a < 1 /\
  async_sparp a [LProducer; LConsumer 0]
  = Raise (ValueError "attempts should be at least 1") /\
  1 <= attempts pair_args /\
  async_sparp pair_args pair_schedule
  <> Raise (ValueError "attempts should be at least 1").
Proof.
  intros a.
  assert (H0 : attempts a < 1) by (simpl; lia).
  assert (H1 : 1 <= attempts pair_args) by (simpl; lia).
  split; [exact H0|].
  split; [exact (proj1 (proj1 (C4_fail_fast_configuration a) H0) _)|].
  split; [exact H1|].
  exact (proj2 (C4_fail_fast_configuration pair_args) H1 _ _).
Defined.

(** ** The canceler *)

Lemma step_canceler a s s' :
  step a LCanceler s = Ok s' ->
  match canceler_pc s with
  | KSleep wake =>
      awake wake s = true /\ s' = set_canceler KCheckDone s
  | KCheckDone =>
      s' = set_canceler
             (KGetShouldStop (total (shared s) =? done (shared s))) s
  | KGetShouldStop is_done =>
      if is_done || should_stop (shared s)
      then s' = set_canceler KReturned
                  (set_source_semaphore
                     (source_semaphore s + Z.to_nat (max_outstanding_requests a))%nat
                     s)
      else s' = set_canceler (KSleep (sleep (now s) (1 # 10))) s
  | KReturned => False
  end.
Proof.
  intros H. step_inv H; subst_pc; simpl in *.
  - auto.
  - now destruct s.
  - rewrite Heqb0, <- release_iter. now destruct s.
  - rewrite Heqb0. now destruct s.
Qed.

Lemma step_other_canceler a l s s' :
  l <> LCanceler -> step a l s = Ok s' -> canceler_pc s' = canceler_pc s.
Proof. intros Hl H. step_inv H; simpl; congruence. Qed.

(** C5.  The canceler reads [is_done] (which is true exactly when [total]
    is known and [done == total]) and then the stop flag.  If either is
    true it adds exactly one permit per consumer to the semaphore and
    returns; otherwise, and in every other transition of it, the semaphore
    is untouched and it does not return.  Once it has returned it has no
    transition left, so the release happens at most once. *)
Theorem C5_canceler_bulk_release a s :
  reachable a s ->
  ((total (shared s) =? done (shared s)) = true
   <-> total (shared s) <> -1 /\ done (shared s) = total (shared s))
  /\ (canceler_pc s = KGetShouldStop true ->
      total (shared s) <> -1 /\ done (shared s) = total (shared s))
  /\ (forall s',
        step a LCanceler s = Ok s' ->
        match canceler_pc s with
        | KCheckDone =>
            canceler_pc s'
            = KGetShouldStop (total (shared s) =? done (shared s))
            /\ source_semaphore s' = source_semaphore s
        | KGetShouldStop is_done =>
            if is_done || should_stop (shared s)
            then canceler_pc s' = KReturned
                 /\ source_semaphore s'
                    = (source_semaphore s + length (consumers s))%nat
            else canceler_pc s' <> KReturned
                 /\ source_semaphore s' = source_semaphore s
        | _ =>
            canceler_pc s' <> KReturned
            /\ source_semaphore s' = source_semaphore s
        end)
  /\ (canceler_pc s = KReturned -> step a LCanceler s = Block)
  /\ (forall l s',
        l <> LCanceler -> step a l s = Ok s' -> canceler_pc s' = canceler_pc s).
Proof.
  intros Hs. destruct (reachable_Inv a s Hs) as
    [Hlock Hsum Hsu Hfa _ _ _ Htot Hdone _ Hpool _ _ _].
  pose proof (n_configs_nonneg a) as Hn.
  split.
  { rewrite Z.eqb_eq. split; [|intros [_ E]; now rewrite E].
    intros E. split; [lia | now rewrite E]. }
  split.
  { intros E. destruct (Hdone E) as [E1 E2]. lia. }
  split.
  { intros s' H. apply step_canceler in H.
    destruct (canceler_pc s) as [wake| |is_done|].
    - destruct H as [_ ->]. simpl. split; [discriminate | reflexivity].
    - subst s'. simpl. auto.
    - destruct (is_done || should_stop (shared s)); subst s'; simpl.
      + rewrite Hpool. auto.
      + split; [discriminate | reflexivity].
    - contradiction. }
  split.
  { intros E. simpl. unfold canceler. now rewrite E. }
  intros l s'. apply step_other_canceler.
Qed.

Lemma C5_canceler_bulk_release_witness :
  let s := state_after pair_args pair_shared (take 19 pair_schedule) in
  reachable pair_args s /\
  canceler_pc s = KGetShouldStop true /\
  source_semaphore s = 0%nat /\
  exists s',
    step pair_args LCanceler s = Ok s' /\
    canceler_pc s' = KReturned /\
    source_semaphore s' = 2%nat /\
    step pair_args LCanceler s' = Block.
Proof.
  intros s.
  assert (Hs : reachable pair_args s).
  { apply (run_reachable pair_args (take 19 pair_schedule)
             (async_main_init pair_args pair_shared)).
    - apply reachable_init; reflexivity.
    - vm_compute. reflexivity. }
  assert (Hpc : canceler_pc s = KGetShouldStop true) by (vm_compute; reflexivity).
  destruct (step pair_args LCanceler s) as [s'| |e] eqn:Hstep;
    try (vm_compute in Hstep; discriminate Hstep).
  destruct (C5_canceler_bulk_release pair_args s Hs)
    as (_ & _ & Hrel & _ & _).
  specialize (Hrel s' Hstep). rewrite Hpc in Hrel. simpl in Hrel.
  destruct Hrel as [Hk Hsem].
  destruct (C5_canceler_bulk_release pair_args s'
              (reachable_step pair_args s LCanceler s' Hs Hstep))
    as (_ & _ & _ & Hblock & _).
  split; [exact Hs|]. split; [exact Hpc|]. split; [vm_compute; reflexivity|].
  exists s'. split; [reflexivity|]. split; [exact Hk|].
  split; [rewrite Hsem; vm_compute; reflexivity | exact (Hblock Hk)].
Defined.

(** ** The stop flag *)

Lemma run_app a schedule1 schedule2 s :
  run a (schedule1 ++ schedule2) s
  = (s' ← run a schedule1 s; run a schedule2 s').
Proof.
  revert s. induction schedule1 as [|l schedule1 IH]; intros s; simpl.
  - reflexivity.
  - destruct (step a l s); cbn [mbind Result_bind]; auto.
Qed.

Lemma step_should_stop a l s s' :
  step a l s = Ok s' ->
  should_stop (shared s) = true -> should_stop (shared s') = true.
Proof. intros H Hstop. step_inv H; simpl; auto. Qed.

Lemma run_should_stop a schedule s s' :
  run a schedule s = Ok s' ->
  should_stop (shared s) = true -> should_stop (shared s') = true.
Proof.
  revert s. induction schedule as [|l schedule IH]; intros s; simpl.
  - now intros [= <-].
  - destruct (step a l s) as [s1| |e] eqn:E; cbn [mbind Result_bind];
      try discriminate.
    intros Hrun Hstop. apply (IH s1 Hrun). exact (step_should_stop a l s s1 E Hstop).
Qed.

Lemma is_failure_true call ok :
  is_failure (consumer_try call) ok = Ok true
  <-> (exists e, raised call = Some e)
      \/ (exists r, call = Returned r /\ status r ∉ ok).
Proof.
  rewrite is_failure_consumer_try. split.
  - destruct (raised call) as [e|] eqn:E; [eauto|].
    destruct call as [r|e]; [|discriminate E].
    intros [= H%negb_true_iff%py_in_VInt_false]. eauto.
  - intros [[e ->]|(r & -> & H%py_in_VInt_false)]; [reflexivity|].
    destruct (raised (Returned r)); [reflexivity | now rewrite H].
Qed.

(** C6.  With [stop_on_first_fail], a consumer whose call ends in a
    failure, be it an exception or a status code outside
    [ok_status_codes], has set [should_stop] when it comes back to
    [acquire].  [set_should_stop] leaves a flag that is already set as it
    is, and no transition of any coroutine resets the flag: once true, it
    is true in every later state. *)
Theorem C6_stop_flag_monotone a s :
  reachable a s ->
  (forall i config call,
     stop_on_first_fail a = true ->
     consumers s !! i = Some (CRequest config) ->
     (exists e, raised call = Some e)
     \/ (exists r, call = Returned r /\ status r ∉ ok_status_codes a) ->
     exists s',
       run a [LResponse i call; LConsumer i; LConsumer i; LConsumer i] s = Ok s'
       /\ should_stop (shared s') = true)
  /\ (forall sh sh',
        set_should_stop sh = Ok (tt, sh') ->
        should_stop sh' = true
        /\ (should_stop sh = true -> sh' = sh)
        /\ set_should_stop sh' = Ok (tt, sh'))
  /\ (forall schedule s',
        run a schedule s = Ok s' ->
        should_stop (shared s) = true -> should_stop (shared s') = true).
Proof.
  intros Hs. split; [|split].
  - intros i config call Hstop Hi Hfail%is_failure_true.
    destruct (consumer_turn a s i config call true (reachable_Inv a s Hs) Hi Hfail)
      as (s1 & Hrun & _ & _ & _ & _ & Hpc).
    rewrite Hstop in Hpc. simpl in Hpc.
    pose proof (reachable_Inv a s1 (run_reachable a _ s s1 Hs Hrun)) as HI1.
    pose proof (step_set_should_stop a s1 i Hpc (inv_lock a s1 HI1)) as Hset.
    eexists. split.
    + change [LResponse i call; LConsumer i; LConsumer i; LConsumer i]
        with ([LResponse i call; LConsumer i; LConsumer i] ++ [LConsumer i]).
      rewrite run_app, Hrun. cbn [mbind Result_bind run]. rewrite Hset.
      reflexivity.
    + reflexivity.
  - intros sh sh' H. apply set_should_stop_Ok in H as [Hlock [= ->]].
    split; [reflexivity|]. split.
    + intros E. destruct sh; simpl in *. now subst.
    + unfold set_should_stop, with_lock. reflexivity.
  - intros schedule s'. apply run_should_stop.
Qed.

Lemma C6_stop_flag_monotone_witness :
  let s := state_after stop_args stop_shared (take 3 stop_schedule) in
  reachable stop_args s /\
  stop_on_first_fail stop_args = true /\
  consumers s !! 0%nat = Some (CRequest (task "a")) /\
  should_stop (shared s) = false /\
  exists s',
    run stop_args
      [LResponse 0 (Raised refused); LConsumer 0; LConsumer 0; LConsumer 0] s
    = Ok s'
    /\ should_stop (shared s') = true
    /\ should_stop (shared (state_after stop_args stop_shared stop_schedule))
       = true.
Proof.
  intros s.
  assert (Hs : reachable stop_args s).
  { apply (run_reachable stop_args (take 3 stop_schedule)
             (async_main_init stop_args stop_shared)).
    - apply reachable_init; reflexivity.
    - vm_compute. reflexivity. }
  assert (Hi : consumers s !! 0%nat = Some (CRequest (task "a")))
    by (vm_compute; reflexivity).
  destruct (C6_stop_flag_monotone stop_args s Hs) as (Hset & _ & _).
  destruct (Hset 0%nat (task "a") (Raised refused) eq_refl Hi
              (or_introl (ex_intro _ refused eq_refl)))
    as (s' & Hrun & Hstop).
  split; [exact Hs|]. split; [reflexivity|]. split; [exact Hi|].
  split; [vm_compute; reflexivity|].
  exists s'. split; [exact Hrun|]. split; [exact Hstop|].
  destruct (C6_stop_flag_monotone stop_args s'
              (run_reachable stop_args _ s s' Hs Hrun)) as (_ & _ & Hmono).
  apply (Hmono (drop 7 stop_schedule)); [|exact Hstop].
  vm_compute in Hrun. injection Hrun as <-. vm_compute. reflexivity.
Defined.

(** ** The total *)

Lemma step_total a l s s' :
  step a l s = Ok s' ->
  total (shared s') = total (shared s)
  \/ (l = LProducer /\ total (shared s) = -1 /\
      exists total0, producer_pc s = PSetTotal total0 /\
                     producer_pc s' = PReturned /\
                     total (shared s') = total0).
Proof.
  intros H. step_inv H; simpl; auto.
  destruct (Z.eqb_spec (total (shared s)) (-1)); [|now left].
  right. eauto 10.
Qed.

Lemma run_total_known a schedule s s' :
  run a schedule s = Ok s' ->
  total (shared s) <> -1 -> total (shared s') = total (shared s).
Proof.
  revert s. induction schedule as [|l schedule IH]; intros s; simpl.
  - now intros [= <-].
  - destruct (step a l s) as [s1| |e] eqn:E; cbn [mbind Result_bind];
      try discriminate.
    intros Hrun Hknown.
    destruct (step_total a l s s1 E) as [E1|(_ & E1 & _)]; [|contradiction].
    rewrite <- E1. apply (IH s1 Hrun). now rewrite E1.
Qed.

(** C7, as the code has it.  A source with [__len__] has its length as
    [total] from the start, in every state.  For a source without, [total]
    is [-1] (unknown) in every state in which the producer has not
    returned, and the number of items afterwards.  The only transition that
    changes [total] is the producer's [set_total] after its loop has ended,
    and it changes [-1] into the number of items; a known [total] never
    changes again. *)
Theorem C7_total_set_once a s :
  reachable a s ->
  (configs_has_len a = true -> total (shared s) = n_configs a)
  /\ (configs_has_len a = false ->
      total (shared s)
      = if producer_returned (producer_pc s) then n_configs a else -1)
  /\ (forall l s',
        step a l s = Ok s' ->
        total (shared s') <> total (shared s) ->
        l = LProducer
        /\ producer_pc s = PSetTotal (n_configs a)
        /\ producer_pc s' = PReturned
        /\ total (shared s) = -1
        /\ total (shared s') = n_configs a)
  /\ (forall schedule s',
        run a schedule s = Ok s' ->
        total (shared s) <> -1 -> total (shared s') = total (shared s)).
Proof.
  intros Hs. pose proof (reachable_Inv a s Hs) as HI.
  pose proof (inv_total a s HI) as Htot.
  split; [|split; [|split]].
  - intros E. now rewrite E in Htot.
  - intros E. now rewrite E in Htot.
  - intros l s' H Hne.
    destruct (step_total a l s s' H) as [E|(-> & E & total0 & Hpc & Hpc' & E')];
      [contradiction|].
    pose proof (inv_producer a s HI) as Hprod. rewrite Hpc in Hprod.
    simpl in Hprod. rewrite Hprod in Hpc, E'. repeat split; assumption.
  - intros schedule s'. apply run_total_known.
Qed.

Lemma C7_total_set_once_witness :
  let s := state_after pair_args pair_shared (take 16 pair_schedule) in
  reachable pair_args s /\
  configs_has_len pair_args = false /\
  producer_pc s = PSetTotal 2 /\
  total (shared s) = -1 /\
  exists s',
    step pair_args LProducer s = Ok s' /\
    total (shared s') = 2 /\
    total (shared (state_after pair_args pair_shared pair_schedule)) = 2.
Proof.
  intros s.
  assert (Hs : reachable pair_args s).
  { apply (run_reachable pair_args (take 16 pair_schedule)
             (async_main_init pair_args pair_shared)).
    - apply reachable_init; reflexivity.
    - vm_compute. reflexivity. }
  assert (Hpc : producer_pc s = PSetTotal 2) by (vm_compute; reflexivity).
  destruct (C7_total_set_once pair_args s Hs) as (_ & Hgen & Hwrite & _).
  specialize (Hgen eq_refl). rewrite Hpc in Hgen. simpl in Hgen.
  destruct (step pair_args LProducer s) as [s'| |e] eqn:Hstep;
    try (vm_compute in Hstep; discriminate Hstep).
  assert (Hne : total (shared s') <> total (shared s)).
  { rewrite Hgen. vm_compute in Hstep. injection Hstep as <-. discriminate. }
  destruct (Hwrite LProducer s' Hstep Hne) as (_ & _ & _ & _ & Hnew).
  destruct (C7_total_set_once pair_args s'
              (reachable_step pair_args s LProducer s' Hs Hstep))
    as (_ & _ & _ & Hkeep).
  split; [exact Hs|]. split; [reflexivity|]. split; [exact Hpc|].
  split; [exact Hgen|].
  exists s'. split; [reflexivity|]. split; [exact Hnew|].
  change 2 with (n_configs pair_args). rewrite <- Hnew.
  apply (Hkeep (drop 17 pair_schedule)).
  - vm_compute in Hstep. injection Hstep as <-. vm_compute. reflexivity.
  - rewrite Hnew. discriminate.
Defined.

(** The claim fails as it is stated: for a list, [total] is known (2)
    before the producer has enumerated anything. *)
Lemma C7_counterexample :
  let s := async_main_init stop_args stop_shared in
  reachable stop_args s /\
  producer_pc s = PPut (task "a") [task "b"] 1 /\
  source_queue s = [] /\
  total (shared s) = 2 /\
  total (shared s) <> -1.
Proof.
  intros s. split; [apply reachable_init; reflexivity|].
  repeat split. discriminate.
Qed.

(** ** Parse failures *)

(** C8.  When the call completed ([text()] and [elapsed] were read) and
    [json()] raised [e], the outcome record carries the string
    ["Failed to decode json due to " + str(e)] under ["json"], next to the
    text, the status code and the elapsed time; the consumer appends it to
    the sink; and it is classified by the status code alone: as the same
    call would be with any other result of [json()]. *)
Theorem C8_parse_failure_embedded a s i config r t el e :
  reachable a s ->
  consumers s !! i = Some (CRequest config) ->
  text r = Returned t ->
  elapsed r = Returned el ->
  json r = Raised e ->
  let response : gmap string PyVal :=
    {[ "text" := VStr t;
       "status_code" := VInt (status r);
       "json" := VStr ("Failed to decode json due to " +:+ exn_str e);
       "elapsed" := el ]} in
  consumer_try (Returned r) = response
  /\ (exists s',
        run a [LResponse i (Returned r); LConsumer i] s = Ok s'
        /\ sink_queue s' = sink_queue s ++ [response])
  /\ (status r ∈ ok_status_codes a ->
      is_failure response (ok_status_codes a) = Ok false)
  /\ (status r ∉ ok_status_codes a ->
      is_failure response (ok_status_codes a) = Ok true)
  /\ (forall parsed,
        is_failure
          (consumer_try
             (Returned {| status := status r; text := text r;
                          json := parsed; elapsed := elapsed r |}))
          (ok_status_codes a)
        = is_failure response (ok_status_codes a)).
Proof.
  intros Hs Hi Ht Hel Hjson response.
  assert (Htry : consumer_try (Returned r) = response).
  { rewrite (consumer_try_returned r t el Ht Hel), Hjson. reflexivity. }
  assert (Hf : is_failure response (ok_status_codes a)
               = Ok (negb (py_in (VInt (status r)) (ok_status_codes a))))
    by apply is_failure_returned.
  split; [exact Htry|]. split; [|split; [|split]].
  - pose proof (lookup_lt_Some _ _ _ Hi) as Hlt.
    eexists. split.
    + cbn [run]. rewrite (step_response a s i config _ Hi).
      cbn [mbind Result_bind].
      rewrite (step_sink_put a _ i _ _ (lookup_set_consumer i _ s Hlt)
                 (is_failure_consumer_try _ _)).
      reflexivity.
    + rewrite Htry. reflexivity.
  - intros Hin%py_in_VInt. now rewrite Hf, Hin.
  - intros Hout%py_in_VInt_false. now rewrite Hf, Hout.
  - intros parsed. rewrite Hf, is_failure_consumer_try. simpl.
    now rewrite Ht, Hel.
Qed.

Lemma C8_parse_failure_embedded_witness :
  let s := state_after pair_args pair_shared pair_both_in_flight in
  let r := {| status := 200; text := Returned "<html>";
              json := Raised {| exn_str := "Expecting value";
                                exn_traceback := "JSONDecodeError" |};
              elapsed := Returned (VFloat (1 # 100)) |} in
  reachable pair_args s /\
  consumers s !! 0%nat = Some (CRequest (task "a")) /\
  consumer_try (Returned r) !! "json"
  = Some (VStr "Failed to decode json due to Expecting value") /\
  is_failure (consumer_try (Returned r)) (ok_status_codes pair_args) = Ok false.
Proof.
  intros s r.
  assert (Hs : reachable pair_args s).
  { apply (run_reachable pair_args pair_both_in_flight
             (async_main_init pair_args pair_shared)).
    - apply reachable_init; reflexivity.
    - vm_compute. reflexivity. }
  assert (Hi : consumers s !! 0%nat = Some (CRequest (task "a")))
    by (vm_compute; reflexivity).
  destruct (C8_parse_failure_embedded pair_args s 0 (task "a") r
              "<html>" (VFloat (1 # 100)) _ Hs Hi eq_refl eq_refl eq_refl)
    as (Htry & _ & Hok & _ & _).
  split; [exact Hs|]. split; [exact Hi|]. split.
  - rewrite Htry. reflexivity.
  - rewrite Htry. apply Hok. simpl. apply list_elem_of_here.
Defined.

(** ** Rate limiting *)

Lemma step_now a l s s' : step a l s = Ok s' -> (now s <= now s')%Q.
Proof.
  intros H. step_inv H; simpl; try apply Qle_refl.
  apply Qle_bool_iff in Heqb. lra.
Qed.

(** What a transition does to a sleeping producer: nothing, unless it is
    the producer's own, which needs the wake-up time to have come. *)
Lemma step_sleeping_producer a l s s' wake rest total0 :
  step a l s = Ok s' ->
  producer_pc s = PSleep wake rest total0 ->
  producer_pc s' = PSleep wake rest total0 \/ (wake <= now s')%Q.
Proof.
  intros H. step_inv H; simpl; intros Hpc; auto; try congruence.
  right. injection Hpc as <- <- <-.
  now apply Qle_bool_iff in Heqb.
Qed.

(** An admission leaves the producer asleep until [now + d]. *)
Lemma step_admission a l s s' :
  step a l s = Ok s' ->
  is_admission l s = true ->
  now s' = now s /\
  exists rest total0,
    producer_pc s'
    = PSleep (sleep (now s) (time_between_requests a)) rest total0.
Proof.
  unfold is_admission. intros H Hadm.
  destruct l; try discriminate.
  destruct (producer_pc s) as [item rest total0| | |] eqn:Hpc; try discriminate.
  simpl in H. unfold producer in H. rewrite Hpc in H.
  injection H as <-. simpl. eauto.
Qed.

Lemma spaced_cons d t ts :
  Forall (fun u => (t + d <= u)%Q) ts -> spaced d ts -> spaced d (t :: ts).
Proof.
  intros Hall Hsp. simpl. split; [|exact Hsp].
  destruct ts as [|u ts]; [exact I|]. now inversion Hall.
Qed.

(** From any state: the admissions to come are spaced, none is before the
    present, and none is before the wake-up time of a sleeping producer. *)
Lemma admission_times_spaced a schedule :
  forall s,
    spaced (time_between_requests a) (admission_times a schedule s)
    /\ Forall (fun u => (now s <= u)%Q) (admission_times a schedule s)
    /\ (forall wake rest total0,
          producer_pc s = PSleep wake rest total0 ->
          Forall (fun u => (wake <= u)%Q) (admission_times a schedule s)).
Proof.
  induction schedule as [|l schedule IH]; intros s; simpl.
  { repeat split; constructor. }
  destruct (step a l s) as [s'| |e] eqn:Hstep;
    try (repeat split; constructor).
  destruct (IH s') as (Hsp & Hnow & Hwake).
  pose proof (step_now a l s s' Hstep) as Hle.
  destruct (is_admission l s) eqn:Hadm; simpl.
  - destruct (step_admission a l s s' Hstep Hadm) as (Hsame & rest & total0 & Hpc).
    split; [|split].
    + apply spaced_cons; [|exact Hsp]. exact (Hwake _ _ _ Hpc).
    + constructor; [apply Qle_refl|].
      eapply Forall_impl; [exact Hnow|]. simpl. intros u Hu. lra.
    + intros wake rest' total' Hpc'. unfold is_admission in Hadm.
      destruct l; try discriminate. rewrite Hpc' in Hadm. discriminate.
  - split; [exact Hsp|]. split.
    + eapply Forall_impl; [exact Hnow|]. simpl. intros u Hu. lra.
    + intros wake rest total0 Hpc.
      destruct (step_sleeping_producer a l s s' wake rest total0 Hstep Hpc)
        as [Hpc'|Hw].
      * exact (Hwake _ _ _ Hpc').
      * eapply Forall_impl; [exact Hnow|]. simpl. intros u Hu. lra.
Qed.

(** C9.  The producer leaves every admission (enqueue and permit release)
    suspended in [asyncio.sleep(time_between_requests)], and it has no
    transition before the wake-up time.  So in every run, under every
    schedule, the clock readings of consecutive admissions are at least
    [time_between_requests] apart (for every value of it, so for [d > 0]).
    The clock is the logical clock of the event loop: [sleep] resumes its
    caller no earlier than the delay it was given. *)
Theorem C9_rate_limiting a sh schedule :
  let d := time_between_requests a in
  spaced d (admission_times a schedule (async_main_init a sh))
  /\ (forall s l s',
        step a l s = Ok s' -> is_admission l s = true ->
        exists rest total0,
          producer_pc s' = PSleep (now s + d)%Q rest total0)
  /\ (forall s wake rest total0,
        producer_pc s = PSleep wake rest total0 ->
        (now s < wake)%Q -> step a LProducer s = Block).
Proof.
  intros d. split; [|split].
  - apply admission_times_spaced.
  - intros s l s' Hstep Hadm.
    destruct (step_admission a l s s' Hstep Hadm) as (_ & rest & total0 & Hpc).
    now exists rest, total0.
  - intros s wake rest total0 Hpc Hlt. simpl. unfold producer, awake.
    rewrite Hpc. destruct (Qle_bool wake (now s)) eqn:E; [|reflexivity].
    apply Qle_bool_iff in E. lra.
Qed.

(** The two admissions of the example run, half a second apart. *)
Example admission_times_pair :
  admission_times pair_args pair_schedule
    (async_main_init pair_args pair_shared)
  = [0%Q; 1 # 2].
Proof. vm_compute. reflexivity. Qed.

(** ** The classification never fails *)

Lemma built_is_failure response ok :
  built response -> exists failed, is_failure response ok = Ok failed.
Proof. intros [call ->]. rewrite is_failure_consumer_try. eauto. Qed.

(** C10.  Every outcome record in the sink, and every record a consumer
    is about to put there, has the key ["error_message"] or the key
    ["status_code"].  So the condition after the sink put has a value (no
    [KeyError]): the consumer appends the record, goes on to
    [increment_fail] or [increment_success] as the condition says, and that
    transition adds one to [done] and to exactly one of [fail] and
    [success]. *)
Theorem C10_classification_total a s :
  reachable a s ->
  (forall response,
     response ∈ sink_queue s ->
     is_Some (response !! "error_message") \/ is_Some (response !! "status_code"))
  /\ (forall i response,
        consumers s !! i = Some (CSinkPut response) ->
        (is_Some (response !! "error_message")
         \/ is_Some (response !! "status_code"))
        /\ exists failed s1 s',
             is_failure response (ok_status_codes a) = Ok failed
             /\ step a (LConsumer i) s = Ok s1
             /\ sink_queue s1 = sink_queue s ++ [response]
             /\ consumers s1 !! i
                = Some (if failed then CIncrementFail else CIncrementSuccess)
             /\ step a (LConsumer i) s1 = Ok s'
             /\ done (shared s') = done (shared s) + 1
             /\ success (shared s')
                = (if failed then success (shared s) else success (shared s) + 1)
             /\ fail (shared s')
                = (if failed then fail (shared s) + 1 else fail (shared s))).
Proof.
  intros Hs. pose proof (reachable_Inv a s Hs) as HI. split.
  - intros response Hin. apply built_has_key.
    exact (proj1 (Forall_forall _ _) (inv_built_sink a s HI) response Hin).
  - intros i response Hi.
    pose proof (Forall_lookup_1 _ _ _ _ (inv_built_pc a s HI) Hi) as Hb.
    simpl in Hb. split; [now apply built_has_key|].
    destruct (built_is_failure response (ok_status_codes a) Hb) as [failed Hf].
    destruct (consumer_counts a s i response failed HI Hi Hf)
      as (s1 & s' & H1 & H2 & Hpc & Hsink & Hdone & Hsu & Hfa & _).
    exists failed, s1, s'.
    assert (Hsink1 : sink_queue s1 = sink_queue s ++ [response]).
    { rewrite (step_sink_put a s i response failed Hi Hf) in H1.
      injection H1 as <-. reflexivity. }
    repeat split; assumption.
Qed.

Lemma C10_classification_total_witness :
  let s := state_after pair_args pair_shared (take 10 pair_schedule) in
  reachable pair_args s /\
  consumers s !! 1%nat = Some (CSinkPut (consumer_try (Returned (page 500)))) /\
  is_Some (consumer_try (Returned (page 500)) !! "status_code") /\
  exists s1 s',
    step pair_args (LConsumer 1) s = Ok s1 /\
    step pair_args (LConsumer 1) s1 = Ok s' /\
    fail (shared s') = 1 /\ success (shared s') = 0.
Proof.
  intros s.
  assert (Hs : reachable pair_args s).
  { apply (run_reachable pair_args (take 10 pair_schedule)
             (async_main_init pair_args pair_shared)).
    - apply reachable_init; reflexivity.
    - vm_compute. reflexivity. }
  assert (Hi : consumers s !! 1%nat
               = Some (CSinkPut (consumer_try (Returned (page 500)))))
    by (vm_compute; reflexivity).
  destruct (C10_classification_total pair_args s Hs) as [_ Hput].
  destruct (Hput 1%nat _ Hi)
    as (_ & failed & s1 & s' & Hf & H1 & _ & _ & H2 & _ & Hsu & Hfa).
  assert (Hfailed : failed = true).
  { vm_compute in Hf. now injection Hf as <-. }
  subst failed.
  split; [exact Hs|]. split; [exact Hi|]. split; [now eexists|].
  exists s1, s'. split; [exact H1|]. split; [exact H2|].
  split; [rewrite Hfa | rewrite Hsu]; vm_compute; reflexivity.
Defined.

(** * Further properties of the code *)

(** ** Tasks reach the collaborator in input order *)

Lemma upcoming_init a sh : upcoming (async_main_init a sh) = configs a.
Proof. unfold upcoming. simpl. now destruct (configs a). Qed.

Lemma step_upcoming a l s s' :
  step a l s = Ok s' ->
  match request_of l s with
  | Some config => upcoming s = config :: upcoming s'
  | None => upcoming s' = upcoming s
  end.
Proof.
  intros H. unfold upcoming, request_of.
  step_inv H; simpl; subst_pc; simpl;
    repeat match goal with
    | E : consumers _ !! _ = _ |- _ => rewrite E; clear E
    | E : source_queue _ = _ |- _ => rewrite E; clear E
    end; simpl; try reflexivity.
  - unfold put. now rewrite <- app_assoc.
  - now destruct rest.
Qed.

Lemma requests_prefix a schedule :
  forall s, requests a schedule s `prefix_of` upcoming s.
Proof.
  induction schedule as [|l schedule IH]; intros s; simpl.
  { apply prefix_nil. }
  destruct (step a l s) as [s'| |e] eqn:Hstep; try apply prefix_nil.
  pose proof (step_upcoming a l s s' Hstep) as Hup.
  destruct (request_of l s) as [config|].
  - rewrite Hup. apply prefix_cons, IH.
  - rewrite <- Hup. apply IH.
Qed.

(** X1.  In every run, under every schedule, the task descriptors passed
    to the collaborator, in the order in which the calls start, are a
    prefix of the input sequence: tasks are taken in input order, none is
    taken twice, none is skipped and none is made up. *)
Theorem X1_requests_in_input_order a sh schedule :
  requests a schedule (async_main_init a sh) `prefix_of` configs a.
Proof. rewrite <- (upcoming_init a sh). apply requests_prefix. Qed.

Example requests_pair :
  requests pair_args pair_schedule (async_main_init pair_args pair_shared)
  = [task "a"; task "b"].
Proof. vm_compute. reflexivity. Qed.

(** ** Permits, the stop flag and the updater *)

Lemma failures_app ok l1 l2 :
  failures ok (l1 ++ l2) = failures ok l1 + failures ok l2.
Proof. induction l1 as [|r l1 IH]; simpl; [reflexivity | rewrite IH; lia]. Qed.

Lemma failures_bounds ok l : 0 <= failures ok l <= Z.of_nat (length l).
Proof.
  induction l as [|r l IH]; simpl; [lia|].
  destruct (is_failure_record ok r); lia.
Qed.

Lemma print_unless_disabled_Ok sh u :
  print_unless_disabled sh = Ok u -> disable_bar sh = true \/ total sh <> 0.
Proof.
  unfold print_unless_disabled, print_counter.
  destruct (disable_bar sh); [now left|].
  destruct (Z.eqb_spec (total sh) (-1)); [intros _; right; lia|].
  destruct (Z.eqb_spec (total sh) 0); [discriminate | now right].
Qed.

Lemma Inv2_init a sh total0 :
  SharedMemory_init total0 (arg_disable_bar a) = Ok sh ->
  Inv2 a (async_main_init a sh).
Proof.
  unfold SharedMemory_init. cbv zeta.
  destruct (print_unless_disabled _); cbn [mbind Result_bind]; try discriminate.
  intros [= <-].
  split; simpl; rewrite ?count_replicate; simpl; try lia; try discriminate.
Qed.

Lemma Inv2_step a l s s' :
  Inv a s -> Inv2 a s -> step a l s = Ok s' -> Inv2 a s'.
Proof.
  intros [Hlock Hsum Hsu Hfa Hsink Hprod Hwork Htot Hdone Hcan Hpool Hbar
          Hbpc Hbsink]
         [Hperm Hnone Hset Hcause Hfail Hudone Hupd] H.
  pose proof (produced_le _ _ Hprod) as Hle.
  pose proof (count_nonneg holding (consumers s)) as Hh.
  pose proof (count_nonneg at_set_should_stop (consumers s)) as Hss.
  pose proof (count_nonneg consumer_returned (consumers s)) as Hcr.
  pose proof (count_le_length consumer_returned (consumers s)) as Hcl.
  pose proof (n_configs_nonneg a) as Hn.
  step_inv H; subst_pc.
  all: try match goal with
       | E : consumers _ !! _ = Some _ |- _ =>
           pose proof (count_lookup holding _ _ _ E);
           pose proof (count_lookup at_acquired _ _ _ E);
           pose proof (count_lookup at_set_should_stop _ _ _ E)
       end.
  all: try match goal with E : source_queue _ = _ |- _ => rewrite E in Hperm end.
  all: split; simpl in *.
  all: try match goal with
       | |- context [if ?b then CIncrementFail else _] => destruct b eqn:?
       end.
  all: try match goal with
       | |- context [if stop_on_first_fail ?x then _ else _] =>
           destruct (stop_on_first_fail x) eqn:?
       end.
  all: unfold put;
       rewrite ?length_app, ?length_insert, ?failures_app, ?release_iter; simpl;
       repeat (erewrite count_insert by eassumption; simpl);
       repeat match goal with
       | H : ?x = ?x -> _ |- _ => specialize (H eq_refl)
       end;
       try assumption; try reflexivity; try lia; try discriminate.
  all: try (unfold release; lia).
  all: try (unfold is_failure_record;
            match goal with E : is_failure _ _ = Ok _ |- _ => rewrite E end; lia).
  all: try (intros E; specialize (Hnone E); lia).
  all: try (intros E; rewrite E in Hperm; lia).
  all: try (intros E; apply Hset; lia).
  all: try (intros E; destruct (Hcause E); split; [assumption | lia]).
  all: try (intros [= E%Z.eqb_eq];
            destruct (configs_has_len a || producer_returned (producer_pc s));
            lia).
  all: try (intros E; destruct (Hudone E); lia).
  all: try (intros E; destruct (Hudone E); split; [lia|];
            match goal with
            | |- context [?t =? -1] => destruct (Z.eqb_spec t (-1))
            end; lia).
  all: try (intros E; destruct (Hupd E) as [[?|?] ?]; split; auto; lia).
  all: try (match goal with E : source_queue _ = _ |- _ => rewrite E end;
            simpl; lia).
  intros _.
  match goal with
  | E : print_unless_disabled _ = Ok _ |- _ =>
      apply print_unless_disabled_Ok in E; rewrite Hbar in E;
      rename E into Hprint
  end.
  match goal with
  | E : (?d || should_stop _) = true |- _ =>
      destruct d; simpl in E; rename E into Hseen
  end.
  - destruct Hudone as [E1 E2]; [reflexivity|]. split; [now right|].
    destruct Hprint as [?|?]; [now left | right; lia].
  - destruct (Hcause Hseen) as [_ Hf]. split; [now left|]. right. lia.
Qed.

Theorem reachable_Inv2 a s : reachable a s -> Inv2 a s.
Proof.
  induction 1 as [sh Hatt Hinit | s l s' Hs IH Hstep].
  - exact (Inv2_init a sh _ Hinit).
  - exact (Inv2_step a l s s' (reachable_Inv a s Hs) IH Hstep).
Qed.


(** ** No consumer leaves early, and the pipeline never hangs *)

Lemma count_lookup_false f (l : list ConsumerPc) i pc :
  l !! i = Some pc -> f pc = false -> count f l + 1 <= Z.of_nat (length l).
Proof.
  intros Hi Hf. revert i Hi.
  induction l as [|x l IH]; intros [|i] Hi; simpl in *; try discriminate.
  - injection Hi as ->. rewrite Hf. pose proof (count_le_length f l). lia.
  - specialize (IH i Hi). destruct (f x); lia.
Qed.

Lemma count_zero_lookup f (l : list ConsumerPc) i pc :
  count f l = 0 -> l !! i = Some pc -> f pc = false.
Proof.
  intros H0 Hi. destruct (f pc) eqn:E; [|reflexivity].
  pose proof (count_lookup f l i pc Hi E). lia.
Qed.

Lemma count_disjoint f g l :
  (forall pc, f pc = true -> g pc = false) ->
  count (fun pc => f pc || g pc) l = count f l + count g l.
Proof.
  intros Hfg. induction l as [|pc l IH]; simpl; [reflexivity|].
  rewrite IH. destruct (f pc) eqn:E; simpl; [rewrite (Hfg pc E)|]; lia.
Qed.

(** X2.  In every state of every run the permits add up: the value of the
    semaphore, plus the consumers that hold a permit and have not looked
    at the queue yet, plus the consumers that have returned, is the length
    of the work queue, plus one per consumer once the canceler has
    released.  So before the canceler's release no consumer has returned:
    a consumer never finds the queue empty while work may still come. *)
Theorem X2_permits_add_up a s :
  reachable a s ->
  Z.of_nat (source_semaphore s) + count at_acquired (consumers s)
  + count consumer_returned (consumers s)
  = Z.of_nat (length (source_queue s))
    + (if canceler_returned (canceler_pc s)
       then Z.of_nat (length (consumers s)) else 0)
  /\ (canceler_pc s <> KReturned ->
      forall i, consumers s !! i <> Some CReturned).
Proof.
  intros Hs. pose proof (reachable_Inv2 a s Hs) as HI. split.
  - exact (inv_permits a s HI).
  - intros Hk i Hi.
    assert (Hc : canceler_returned (canceler_pc s) = false)
      by (destruct (canceler_pc s); try reflexivity; contradiction).
    pose proof (count_zero_lookup _ _ i _ (inv_none_returned a s HI Hc) Hi).
    discriminate.
Qed.

Lemma X2_permits_add_up_witness :
  let s := state_after pair_args pair_shared pair_both_in_flight in
  reachable pair_args s /\
  canceler_pc s <> KReturned /\
  consumers s !! 0%nat <> Some CReturned /\
  source_semaphore s = 0%nat /\
  source_queue s = [].
Proof.
  intros s.
  assert (Hs : reachable pair_args s).
  { apply (run_reachable pair_args pair_both_in_flight
             (async_main_init pair_args pair_shared)).
    - apply reachable_init; reflexivity.
    - vm_compute. reflexivity. }
  assert (Hk : canceler_pc s <> KReturned) by (vm_compute; discriminate).
  destruct (X2_permits_add_up pair_args s Hs) as [_ Hnone].
  split; [exact Hs|]. split; [exact Hk|]. split; [exact (Hnone Hk 0%nat)|].
  split; vm_compute; reflexivity.
Defined.

(** How long a sleeper still has to wait. *)
Lemma wait_exists wake (s : State) :
  exists dt, Qle_bool 0 dt = true /\ awake wake (set_now (now s + dt)%Q s) = true.
Proof.
  destruct (Qle_bool wake (now s)) eqn:E.
  - exists 0%Q. split; [reflexivity|]. unfold awake. simpl.
    apply Qle_bool_iff. apply Qle_bool_iff in E. lra.
  - exists (wake - now s)%Q. split.
    + apply Qle_bool_iff.
      destruct (Qlt_le_dec (now s) wake) as [Hlt|Hle]; [lra|].
      apply Qle_bool_iff in Hle. congruence.
    + unfold awake. simpl. apply Qle_bool_iff. lra.
Qed.

Ltac not_blocked :=
  unfold step, producer, canceler, updater, consumer, consumer_response,
    set_total, check_done, get_should_stop, set_should_stop, update,
    increment_success, increment_fail, with_lock, print_unless_disabled,
    print_counter, is_failure;
  repeat match goal with
  | E : _ = _ |- _ => rewrite E
  end;
  cbn [mbind Result_bind];
  let H := fresh "H" in
  intros H;
  repeat (first
    [ discriminate H
    | match type of H with
      | context [match ?x with _ => _ end] => destruct x eqn:?
      end ];
    try cbn [mbind Result_bind] in H).

Lemma producer_not_blocked a s :
  lock (shared s) = false ->
  match producer_pc s with
  | PSleep wake _ _ => awake wake s = true
  | PReturned => False
  | _ => True
  end ->
  step a LProducer s <> Block.
Proof.
  intros Hlock Hpc.
  destruct (producer_pc s) eqn:E; try contradiction; not_blocked.
Qed.

Lemma canceler_not_blocked a s :
  lock (shared s) = false ->
  match canceler_pc s with
  | KSleep wake => awake wake s = true
  | KReturned => False
  | _ => True
  end ->
  step a LCanceler s <> Block.
Proof.
  intros Hlock Hpc.
  destruct (canceler_pc s) eqn:E; try contradiction; not_blocked.
Qed.

Lemma updater_not_blocked a s :
  lock (shared s) = false ->
  match updater_pc s with
  | USleep wake => awake wake s = true
  | UReturned => False
  | _ => True
  end ->
  step a LUpdater s <> Block.
Proof.
  intros Hlock Hpc.
  destruct (updater_pc s) eqn:E; try contradiction; not_blocked.
Qed.

Lemma consumer_not_blocked a s i pc :
  lock (shared s) = false ->
  consumers s !! i = Some pc ->
  match pc with
  | CAcquire => source_semaphore s <> 0%nat
  | CRequest _ | CReturned => False
  | _ => True
  end ->
  step a (LConsumer i) s <> Block.
Proof.
  intros Hlock Hi Hpc.
  destruct pc; try contradiction; not_blocked.
  unfold acquire in *. destruct (source_semaphore s); [contradiction | discriminate].
Qed.

Lemma run_tick_then a dt l s :
  Qle_bool 0 dt = true ->
  step a l (set_now (now s + dt)%Q s) <> Block ->
  run a [LTick dt; l] s <> Block.
Proof.
  intros Hdt Hl. simpl. rewrite Hdt. cbn [mbind Result_bind].
  destruct (step a l (set_now (now s + dt)%Q s)); cbn [mbind Result_bind];
    congruence.
Qed.

Lemma forallb_false_lookup (l : list ConsumerPc) :
  forallb consumer_returned l = false ->
  exists i pc, l !! i = Some pc /\ consumer_returned pc = false.
Proof.
  induction l as [|pc l IH]; simpl; [discriminate|].
  destruct (consumer_returned pc) eqn:E; simpl.
  - intros H. destruct (IH H) as (i & pc' & Hi & Hpc). now exists (S i), pc'.
  - intros _. now exists 0%nat, pc.
Qed.

(** X3.  The pipeline never hangs.  In every state of every run in which
    some coroutine has not returned, some coroutine can be resumed, at
    once or after the clock has advanced far enough for a sleeper (a
    consumer inside a call is resumed by the answer of the collaborator).
    In particular the consumers that wait on the semaphore at shutdown
    always find a permit. *)
Theorem X3_pipeline_never_hangs a s :
  reachable a s ->
  all_returned s = false ->
  exists dt l, is_tick l = false /\ run a [LTick dt; l] s <> Block.
Proof.
  intros Hs Hret.
  pose proof (inv_lock a s (reachable_Inv a s Hs)) as Hlock.
  pose proof (inv_permits a s (reachable_Inv2 a s Hs)) as Hperm.
  unfold all_returned in Hret.
  destruct (producer_pc s) as [item rest t|wake rest t|t|] eqn:Ep.
  1,3: exists 0%Q, LProducer; split; [reflexivity|];
       apply run_tick_then; [reflexivity|];
       apply producer_not_blocked; simpl; [assumption | now rewrite Ep].
  { destruct (wait_exists wake s) as (dt & Hdt & Haw).
    exists dt, LProducer. split; [reflexivity|].
    apply run_tick_then; [assumption|].
    apply producer_not_blocked; simpl; [assumption | now rewrite Ep]. }
  destruct (canceler_pc s) as [wake| |is_done|] eqn:Ek.
  2,3: exists 0%Q, LCanceler; split; [reflexivity|];
       apply run_tick_then; [reflexivity|];
       apply canceler_not_blocked; simpl; [assumption | now rewrite Ek].
  { destruct (wait_exists wake s) as (dt & Hdt & Haw).
    exists dt, LCanceler. split; [reflexivity|].
    apply run_tick_then; [assumption|].
    apply canceler_not_blocked; simpl; [assumption | now rewrite Ek]. }
  destruct (updater_pc s) as [wake| | |seen|] eqn:Eu.
  2,3,4: exists 0%Q, LUpdater; split; [reflexivity|];
       apply run_tick_then; [reflexivity|];
       apply updater_not_blocked; simpl; [assumption | now rewrite Eu].
  { destruct (wait_exists wake s) as (dt & Hdt & Haw).
    exists dt, LUpdater. split; [reflexivity|].
    apply run_tick_then; [assumption|].
    apply updater_not_blocked; simpl; [assumption | now rewrite Eu]. }
  destruct (forallb_false_lookup _ Hret) as (i & pc & Hi & Hpc).
  destruct pc as [| |config|response| | | |]; try discriminate Hpc.
  3: { exists 0%Q, (LResponse i (Raised refused)).
       split; [reflexivity|]. apply run_tick_then; [reflexivity|].
       simpl. unfold consumer_response. simpl. rewrite Hi. discriminate. }
  all: exists 0%Q, (LConsumer i); split; [reflexivity|];
       apply run_tick_then; [reflexivity|];
       apply (consumer_not_blocked a (set_now (now s + 0)%Q s) i _ Hlock Hi);
       simpl; try exact I.
  intros Hsem. rewrite Hsem in Hperm. simpl in Hperm.
  assert (Hd : forall pc, at_acquired pc = true -> consumer_returned pc = false)
    by (now intros []).
  apply (count_disjoint _ _ (consumers s)) in Hd.
  pose proof (count_lookup_false
                (fun pc => at_acquired pc || consumer_returned pc)
                (consumers s) i CAcquire Hi eq_refl).
  lia.
Qed.

Lemma X3_pipeline_never_hangs_witness :
  let s := state_after pair_args pair_shared (take 20 pair_schedule) in
  reachable pair_args s /\
  all_returned s = false /\
  consumers s = [CAcquire; CAcquire] /\
  exists dt l, is_tick l = false /\ run pair_args [LTick dt; l] s <> Block.
Proof.
  intros s.
  assert (Hs : reachable pair_args s).
  { apply (run_reachable pair_args (take 20 pair_schedule)
             (async_main_init pair_args pair_shared)).
    - apply reachable_init; reflexivity.
    - vm_compute. reflexivity. }
  assert (Hret : all_returned s = false) by (vm_compute; reflexivity).
  split; [exact Hs|]. split; [exact Hret|]. split; [vm_compute; reflexivity|].
  exact (X3_pipeline_never_hangs pair_args s Hs Hret).
Defined.

(** ** What [async_sparp] returns *)

Lemma failures_exists ok l :
  1 <= failures ok l ->
  exists response, response ∈ l /\ is_failure response ok = Ok true.
Proof.
  induction l as [|r l IH]; simpl; [lia|].
  unfold is_failure_record at 1.
  destruct (is_failure r ok) as [[|]| |] eqn:E.
  - intros _. exists r. split; [apply list_elem_of_here | exact E].
  - intros H. destruct IH as (r' & Hin & Hr'); [lia|].
    exists r'. split; [now apply list_elem_of_further | exact Hr'].
  - intros H. destruct IH as (r' & Hin & Hr'); [lia|].
    exists r'. split; [now apply list_elem_of_further | exact Hr'].
  - intros H. destruct IH as (r' & Hin & Hr'); [lia|].
    exists r'. split; [now apply list_elem_of_further | exact Hr'].
Qed.

Lemma all_returned_counts s :
  all_returned s = true ->
  count holding (consumers s) = 0
  /\ count counting (consumers s) = 0
  /\ count at_increment_fail (consumers s) = 0.
Proof.
  intros H%all_returned_consumers.
  repeat split; apply (count_forallb _ consumer_returned); auto; now intros [].
Qed.

(** X4.  When [async_sparp] returns, it returns at most one outcome per
    task.  Without [stop_on_first_fail] it returns exactly one outcome per
    task, and so it does with [stop_on_first_fail] whenever no returned
    outcome is a failure: outcomes are missing only behind a failure that
    is itself in the list. *)
Theorem X4_one_outcome_per_task a schedule results :
  async_sparp a schedule = Ok results ->
  (length results <= length (configs a))%nat
  /\ (stop_on_first_fail a = false -> length results = length (configs a))
  /\ (length results <> length (configs a) ->
      exists response,
        response ∈ results /\ is_failure response (ok_status_codes a) = Ok true).
Proof.
  intros (s & Hs & Hret & ->)%async_sparp_reachable.
  rewrite empty_full_queue_all.
  destruct (reachable_Inv a s Hs) as
    [_ Hsum Hsu Hfa Hsink Hprod Hwork _ _ Hcan _ _ _ _].
  destruct (reachable_Inv2 a s Hs) as [_ _ _ Hcause Hfail _ _].
  destruct (all_returned_counts s Hret) as (Hh & Hc & Hf).
  destruct (all_returned_pcs s Hret) as (Hp & Hk & _).
  rewrite Hp in Hwork. simpl in Hwork. unfold n_configs in *.
  assert (Hmiss : length (sink_queue s) <> length (configs a) ->
                  should_stop (shared s) = true).
  { intros Hne. destruct (Hcan Hk) as [E|E]; [exact E | lia]. }
  split; [lia|]. split.
  - intros Hoff. destruct (Nat.eq_dec (length (sink_queue s)) (length (configs a)))
      as [E|Hne]; [exact E|].
    destruct (Hcause (Hmiss Hne)) as [Hon _]. congruence.
  - intros Hne. destruct (Hcause (Hmiss Hne)) as [_ Hone].
    apply failures_exists. lia.
Qed.

Lemma X4_one_outcome_per_task_witness :
  exists results,
    async_sparp pair_args pair_schedule = Ok results /\
    stop_on_first_fail pair_args = false /\
    length results = 2%nat.
Proof.
  pose (results := sink_queue (state_after pair_args pair_shared pair_schedule)).
  assert (E : async_sparp pair_args pair_schedule = Ok results)
    by (vm_compute; reflexivity).
  exists results. split; [exact E|]. split; [reflexivity|].
  exact (proj1 (proj2 (X4_one_outcome_per_task pair_args pair_schedule results E))
           eq_refl).
Defined.

(** X5.  The counters agree with the records.  In every state, [fail]
    plus the consumers about to call [increment_fail] is the number of
    records in the sink that the condition classifies as failures; when
    [asyncio.gather] has returned, [fail] is the number of failure records
    in the returned list and [success] the number of the others. *)
Theorem X5_counters_match_records a s :
  reachable a s ->
  fail (shared s) + count at_increment_fail (consumers s)
  = failures (ok_status_codes a) (sink_queue s)
  /\ (all_returned s = true ->
      fail (shared s)
      = failures (ok_status_codes a) (empty_full_queue (sink_queue s))
      /\ success (shared s)
         = Z.of_nat (length (empty_full_queue (sink_queue s)))
           - failures (ok_status_codes a) (empty_full_queue (sink_queue s))).
Proof.
  intros Hs.
  destruct (reachable_Inv a s Hs) as [_ Hsum _ _ Hsink _ _ _ _ _ _ _ _ _].
  pose proof (inv_failures a s (reachable_Inv2 a s Hs)) as Hfail.
  split; [exact Hfail|]. intros Hret. rewrite empty_full_queue_all.
  destruct (all_returned_counts s Hret) as (_ & Hc & Hf). lia.
Qed.

Lemma X5_counters_match_records_witness :
  let s := state_after pair_args pair_shared pair_schedule in
  reachable pair_args s /\
  all_returned s = true /\
  failures (ok_status_codes pair_args) (sink_queue s) = 1 /\
  fail (shared s) = 1 /\ success (shared s) = 1.
Proof.
  intros s.
  assert (Hs : reachable pair_args s).
  { apply (run_reachable pair_args pair_schedule
             (async_main_init pair_args pair_shared)).
    - apply reachable_init; reflexivity.
    - vm_compute. reflexivity. }
  assert (Hret : all_returned s = true) by (vm_compute; reflexivity).
  destruct (X5_counters_match_records pair_args s Hs) as [_ Hend].
  destruct (Hend Hret) as [Hf Hsu].
  split; [exact Hs|]. split; [exact Hret|].
  split; [vm_compute; reflexivity|].
  split; [rewrite Hf | rewrite Hsu]; vm_compute; reflexivity.
Defined.

(** X6.  The stop flag has a cause.  In every state in which
    [should_stop] is set, [stop_on_first_fail] was asked for and a record
    classified as a failure is already in the sink. *)
Theorem X6_stop_flag_has_a_cause a s :
  reachable a s ->
  should_stop (shared s) = true ->
  stop_on_first_fail a = true
  /\ exists response,
       response ∈ sink_queue s
       /\ is_failure response (ok_status_codes a) = Ok true.
Proof.
  intros Hs Hstop.
  destruct (reachable_Inv2 a s Hs) as [_ _ _ Hcause Hfail _ _].
  destruct (Hcause Hstop) as [Hon Hone]. split; [exact Hon|].
  apply failures_exists.
  pose proof (count_nonneg at_increment_fail (consumers s)). lia.
Qed.

Lemma X6_stop_flag_has_a_cause_witness :
  let s := state_after stop_args stop_shared stop_schedule in
  reachable stop_args s /\
  should_stop (shared s) = true /\
  stop_on_first_fail stop_args = true /\
  exists response,
    response ∈ sink_queue s
    /\ is_failure response (ok_status_codes stop_args) = Ok true.
Proof.
  intros s.
  assert (Hs : reachable stop_args s).
  { apply (run_reachable stop_args stop_schedule
             (async_main_init stop_args stop_shared)).
    - apply reachable_init; reflexivity.
    - vm_compute. reflexivity. }
  assert (Hstop : should_stop (shared s) = true) by (vm_compute; reflexivity).
  split; [exact Hs|]. split; [exact Hstop|].
  exact (X6_stop_flag_has_a_cause stop_args s Hs Hstop).
Defined.

(** ** The exceptions of [async_sparp] *)






(** X8.  A source without items and an enabled progress bar: the call
    never returns a list.  With [__len__] it raises [ZeroDivisionError]
    before any coroutine starts, under every schedule. *)
Theorem X8_empty_source_with_bar a schedule :
  configs a = [] ->
  arg_disable_bar a = false ->
  (forall results, async_sparp a schedule <> Ok results)
  /\ (configs_has_len a = true -> 1 <= attempts a ->
      async_sparp a schedule = Raise ZeroDivisionError).
Proof.
  intros Hempty Hbar. split.
  - intros results (s & Hs & Hret & _)%async_sparp_reachable.
    destruct (all_returned_pcs s Hret) as (_ & _ & Hu).
    destruct (inv_updater a s (reachable_Inv2 a s Hs) Hu) as [_ [E|E]].
    + congruence.
    + apply E. unfold n_configs. now rewrite Hempty.
  - intros Hlen Hatt. unfold async_sparp.
    destruct (Z.ltb_spec (attempts a) 1) as [Hlt|_]; [lia|].
    rewrite Hlen, Hempty, Hbar. reflexivity.
Qed.

Lemma X8_empty_source_with_bar_witness :
  configs (empty_args true) = [] /\
  arg_disable_bar (empty_args true) = false /\
  async_sparp (empty_args true) [LProducer; LCanceler]
  = Raise ZeroDivisionError.
Proof.
  split; [reflexivity|]. split; [reflexivity|].
  apply (X8_empty_source_with_bar (empty_args true) _ eq_refl eq_refl);
    [reflexivity | simpl; lia].
Defined.

(** ** What only grows, and what the updater leaves alone *)

Lemma step_grows a l s s' :
  step a l s = Ok s' ->
  sink_queue s `prefix_of` sink_queue s'
  /\ done (shared s) <= done (shared s')
  /\ success (shared s) <= success (shared s')
  /\ fail (shared s) <= fail (shared s').
Proof.
  intros H. step_inv H; simpl; repeat split; try reflexivity; try lia.
  apply prefix_app_r. reflexivity.
Qed.

(** X9.  Along every run the sink only grows at its tail (no outcome is
    removed, replaced or reordered once a consumer has put it) and none
    of [done], [success] and [fail] ever decreases. *)
Theorem X9_sink_and_counters_grow a schedule s s' :
  run a schedule s = Ok s' ->
  sink_queue s `prefix_of` sink_queue s'
  /\ done (shared s) <= done (shared s')
  /\ success (shared s) <= success (shared s')
  /\ fail (shared s) <= fail (shared s').
Proof.
  revert s. induction schedule as [|l schedule IH]; intros s; simpl.
  - intros [= <-]. repeat split; reflexivity.
  - destruct (step a l s) as [s1| |e] eqn:E; cbn [mbind Result_bind];
      try discriminate.
    intros Hrun.
    destruct (step_grows a l s s1 E) as (H1 & H2 & H3 & H4).
    destruct (IH s1 Hrun) as (H1' & H2' & H3' & H4').
    repeat split; try lia. now transitivity (sink_queue s1).
Qed.

Lemma X9_sink_and_counters_grow_witness :
  let s := state_after pair_args pair_shared (take 12 pair_schedule) in
  let s' := state_after pair_args pair_shared pair_schedule in
  run pair_args (drop 12 pair_schedule) s = Ok s' /\
  length (sink_queue s) = 1%nat /\
  length (sink_queue s') = 2%nat /\
  sink_queue s `prefix_of` sink_queue s'.
Proof.
  intros s s'.
  assert (Hrun : run pair_args (drop 12 pair_schedule) s = Ok s')
    by (vm_compute; reflexivity).
  split; [exact Hrun|]. split; [vm_compute; reflexivity|].
  split; [vm_compute; reflexivity|].
  exact (proj1 (X9_sink_and_counters_grow pair_args _ s s' Hrun)).
Defined.

(** X10.  The updater only looks.  A transition of it changes nothing
    but its own program counter: not the counters, the total or the stop
    flag, not the queues, the semaphore or another coroutine.  And when it
    has returned, the stop flag is set or [done] has reached the number of
    items. *)
Theorem X10_updater_only_looks a s :
  reachable a s ->
  (forall s',
     step a LUpdater s = Ok s' ->
     shared s' = shared s
     /\ source_queue s' = source_queue s
     /\ source_semaphore s' = source_semaphore s
     /\ sink_queue s' = sink_queue s
     /\ producer_pc s' = producer_pc s
     /\ canceler_pc s' = canceler_pc s
     /\ consumers s' = consumers s)
  /\ (updater_pc s = UReturned ->
      should_stop (shared s) = true \/ done (shared s) = n_configs a).
Proof.
  intros Hs. split.
  - intros s' H. step_inv H; simpl; repeat split; now destruct (shared s).
  - intros Hu.
    exact (proj1 (inv_updater a s (reachable_Inv2 a s Hs) Hu)).
Qed.

Lemma X10_updater_only_looks_witness :
  let s := state_after pair_args pair_shared pair_schedule in
  reachable pair_args s /\
  updater_pc s = UReturned /\
  done (shared s) = 2 /\
  (should_stop (shared s) = true \/ done (shared s) = n_configs pair_args).
Proof.
  intros s.
  assert (Hs : reachable pair_args s).
  { apply (run_reachable pair_args pair_schedule
             (async_main_init pair_args pair_shared)).
    - apply reachable_init; reflexivity.
    - vm_compute. reflexivity. }
  assert (Hu : updater_pc s = UReturned) by (vm_compute; reflexivity).
  split; [exact Hs|]. split; [exact Hu|]. split; [vm_compute; reflexivity|].
  exact (proj2 (X10_updater_only_looks pair_args s Hs) Hu).
Defined.

(** ** How long a call takes at least *)

Lemma Inv3_init a sh :
  (0 <= time_between_requests a)%Q -> Inv3 a (async_main_init a sh).
Proof.
  intros Hd. split; simpl; unfold sleep; try lra.
  unfold n_configs. destruct (configs a) as [|item rest]; simpl;
    unfold inject_Z; simpl.
  - lra.
  - change (0 + 1 - 1) with 0. lra.
Qed.

Lemma Inv3_step a l s s' :
  (0 <= time_between_requests a)%Q ->
  Inv a s -> Inv3 a s -> step a l s = Ok s' -> Inv3 a s'.
Proof.
  intros Hd HI [Hnow Hp Hk Hu] H.
  pose proof (inv_producer a s HI) as Hprod.
  step_inv H.
  all: repeat match goal with
       | E : awake _ _ = true |- _ => apply Qle_bool_iff in E
       | E : Qle_bool _ _ = true |- _ => apply Qle_bool_iff in E
       end.
  all: repeat match goal with
       | E : producer_pc _ = _ |- _ => rewrite E in Hp, Hprod
       | E : canceler_pc _ = _ |- _ => rewrite E in Hk
       | E : updater_pc _ = _ |- _ => rewrite E in Hu
       end.
  all: split; simpl in *; unfold sleep in *; try assumption; try lra.
  all: try (destruct (producer_pc s); simpl in *; lra).
  all: try (destruct (canceler_pc s); simpl in *; lra).
  all: try (destruct (updater_pc s); simpl in *; lra).
  - match goal with
    | |- (inject_Z ?t * _ <= _)%Q =>
        replace t with ((t - 1) + 1) by lia; rewrite inject_Z_plus
    end.
    change (inject_Z 1) with 1%Q. lra.
  - destruct rest as [|item rest']; simpl; [lra|].
    match goal with
    | |- (inject_Z (?t + 1 - 1) * _ <= _)%Q =>
        replace (t + 1 - 1) with t by lia
    end. lra.
  - now rewrite <- Hprod.
Qed.

Theorem reachable_Inv3 a s :
  (0 <= time_between_requests a)%Q -> reachable a s -> Inv3 a s.
Proof.
  intros Hd. induction 1 as [sh Hatt Hinit | s l s' Hs IH Hstep].
  - now apply Inv3_init.
  - exact (Inv3_step a l s s' Hd (reachable_Inv a s Hs) IH Hstep).
Qed.

(** X11.  A call needs time, on the clock of the event loop.  When
    [asyncio.gather] returns, at least 0.3 seconds have passed, because
    the updater sleeps before its first look; and for a pause
    [time_between_requests = d >= 0] at least [d] times the number of
    items, because the producer sleeps after every item, the last one
    included, before it sets the total. *)
Theorem X11_duration_floor a s :
  (0 <= time_between_requests a)%Q ->
  reachable a s ->
  all_returned s = true ->
  (3 # 10 <= now s)%Q
  /\ (inject_Z (n_configs a) * time_between_requests a <= now s)%Q.
Proof.
  intros Hd Hs Hret. destruct (reachable_Inv3 a s Hd Hs) as [_ Hp _ Hu].
  destruct (all_returned_pcs s Hret) as (Ep & _ & Eu).
  rewrite Ep in Hp. rewrite Eu in Hu. split; assumption.
Qed.

Lemma X11_duration_floor_witness :
  let s := state_after pair_args pair_shared pair_schedule in
  (0 <= time_between_requests pair_args)%Q /\
  reachable pair_args s /\
  all_returned s = true /\
  (now s == 1)%Q /\
  (3 # 10 <= now s)%Q /\
  (inject_Z 2 * (1 # 2) <= now s)%Q.
Proof.
  intros s.
  assert (Hd : (0 <= time_between_requests pair_args)%Q) by (simpl; lra).
  assert (Hs : reachable pair_args s).
  { apply (run_reachable pair_args pair_schedule
             (async_main_init pair_args pair_shared)).
    - apply reachable_init; reflexivity.
    - vm_compute. reflexivity. }
  assert (Hret : all_returned s = true) by (vm_compute; reflexivity).
  destruct (X11_duration_floor pair_args s Hd Hs Hret) as [H1 H2].
  split; [exact Hd|]. split; [exact Hs|]. split; [exact Hret|].
  split; [vm_compute; reflexivity|]. split; [exact H1 | exact H2].
Defined.


(** ** Every answer is returned once *)

Lemma SharedMemory_init_Ok a sh :
  SharedMemory_init
    (if configs_has_len a then Z.of_nat (length (configs a)) else -1)
    (arg_disable_bar a) = Ok sh ->
  sh = init_shared a.
Proof.
  unfold SharedMemory_init. cbv zeta.
  destruct (print_unless_disabled _); cbn [mbind Result_bind]; try discriminate.
  now intros [= <-].
Qed.

Lemma option_list_to_put pc :
  option_list (to_put pc) = match pc with CSinkPut r => [r] | _ => [] end.
Proof. now destruct pc. Qed.

(** Replacing one consumer replaces its pending record. *)
Lemma pending_insert (l : list ConsumerPc) i pc pc' :
  l !! i = Some pc ->
  option_list (to_put pc) ++ pending (<[i := pc']> l)
  ≡ₚ option_list (to_put pc') ++ pending l.
Proof.
  intros Hi. pose proof (lookup_lt_Some _ _ _ Hi) as Hlt.
  rewrite insert_take_drop by assumption.
  rewrite <- (take_drop_middle l i pc Hi) at 3.
  unfold pending. rewrite !omap_app. simpl.
  destruct (to_put pc) as [r|], (to_put pc') as [r'|]; simpl;
    solve_Permutation.
Qed.

Lemma step_answers a l s s' :
  step a l s = Ok s' ->
  sink_queue s' ++ pending (consumers s')
  ≡ₚ sink_queue s ++ pending (consumers s) ++ option_list (answer_of l s).
Proof.
  intros H. unfold answer_of.
  step_inv H; simpl;
    repeat match goal with
    | |- context [if ?b then _ else _] => destruct b
    end;
    try match goal with
    | E : consumers _ !! ?i = Some ?pc
      |- context [pending (<[?i := ?pc']> _)] =>
        pose proof (pending_insert _ i pc pc' E) as Hp; rewrite ?E;
        simpl in Hp
    end; simpl; rewrite ?app_nil_r; try reflexivity;
    try (rewrite Hp; reflexivity).
  - unfold put. rewrite <- Hp. solve_Permutation.
  - unfold put. rewrite <- Hp. solve_Permutation.
  - rewrite Hp. solve_Permutation.
Qed.

Lemma run_answers a schedule :
  forall s s',
    run a schedule s = Ok s' ->
    sink_queue s' ++ pending (consumers s')
    ≡ₚ sink_queue s ++ pending (consumers s) ++ answers a schedule s.
Proof.
  induction schedule as [|l schedule IH]; intros s s'; simpl.
  - intros [= <-]. now rewrite app_nil_r.
  - destruct (step a l s) as [s1| |e] eqn:E; cbn [mbind Result_bind];
      try discriminate.
    intros Hrun. rewrite (IH s1 s' Hrun), (app_assoc (sink_queue s1)).
    rewrite (step_answers a l s s1 E).
    destruct (answer_of l s); simpl; rewrite <- ?app_assoc; simpl;
      rewrite ?app_nil_r; reflexivity.
Qed.

Lemma pending_returned l :
  forallb consumer_returned l = true -> pending l = [].
Proof.
  induction l as [|pc l IH]; simpl; [reflexivity|].
  intros [Hpc Hl]%andb_prop. destruct pc; try discriminate. simpl.
  now apply IH.
Qed.

(** X12.  Every answer comes back, once.  The list [async_sparp] returns
    is a permutation of the outcome records built from the answers the
    collaborator gave during the run: none is lost, none is returned
    twice, and nothing else is in the list. *)
Theorem X12_every_answer_returned_once a schedule results :
  async_sparp a schedule = Ok results ->
  results ≡ₚ answers a schedule (async_main_init a (init_shared a)).
Proof.
  unfold async_sparp, async_main.
  destruct (attempts a <? 1); [discriminate|]. cbv zeta.
  destruct (SharedMemory_init _ _) as [sh| |e] eqn:Hinit;
    cbn [mbind Result_bind]; try discriminate.
  apply SharedMemory_init_Ok in Hinit. subst sh.
  destruct (run a schedule _) as [s| |e] eqn:Hrun;
    cbn [mbind Result_bind]; try discriminate.
  destruct (all_returned s) eqn:Hret; cbn [mbind Result_bind]; try discriminate.
  intros [= <-]. rewrite empty_full_queue_all.
  pose proof (run_answers a schedule _ s Hrun) as Hp.
  rewrite (pending_returned _ (all_returned_consumers s Hret)) in Hp.
  rewrite app_nil_r in Hp. rewrite Hp. simpl.
  unfold pending. clear. induction (Z.to_nat _); simpl; auto.
Qed.

Lemma X12_every_answer_returned_once_witness :
  exists results,
    async_sparp pair_args pair_schedule = Ok results /\
    answers pair_args pair_schedule (async_main_init pair_args (init_shared pair_args))
    = [consumer_try (Returned (page 200)); consumer_try (Returned (page 500))] /\
    results ≡ₚ [consumer_try (Returned (page 200)); consumer_try (Returned (page 500))].
Proof.
  pose (results := sink_queue (state_after pair_args pair_shared pair_schedule)).
  assert (E : async_sparp pair_args pair_schedule = Ok results)
    by (vm_compute; reflexivity).
  exists results. split; [exact E|].
  assert (Ha : answers pair_args pair_schedule
                 (async_main_init pair_args (init_shared pair_args))
               = [consumer_try (Returned (page 200));
                  consumer_try (Returned (page 500))])
    by (vm_compute; reflexivity).
  split; [exact Ha|]. rewrite <- Ha.
  exact (X12_every_answer_returned_once pair_args pair_schedule results E).
Defined.

(** ** The retry message *)

Lemma filter_all_false {A : Type} (f : A -> bool) (l : list A) :
  Forall (fun x => f x = false) l -> List.filter f l = [].
Proof.
  induction 1 as [|x l Hx _ IH]; simpl; [reflexivity|]. now rewrite Hx.
Qed.

Lemma filter_all_true {A : Type} (f : A -> bool) (l : list A) :
  Forall (fun x => f x = true) l -> List.filter f l = l.
Proof.
  induction 1 as [|x l Hx _ IH]; simpl; [reflexivity|]. now rewrite Hx, IH.
Qed.

Lemma announces_iff attempts current_attempt :
  announces attempts current_attempt = true
  <-> 2 <= current_attempt /\ attempts - 2 <= current_attempt.
Proof. unfold announces. rewrite andb_true_iff, Z.ltb_lt, Z.leb_le. lia. Qed.

(** The attempts of one request that are announced. *)
Lemma announced_attempts attempts :
  List.filter (announces attempts) (seqZ 1 attempts)
  = seqZ (Z.max 2 (attempts - 2)) (Z.min (attempts - 1) 3).
Proof.
  destruct (Z.le_gt_cases attempts 1) as [Hsmall|Hbig].
  - rewrite (seqZ_nil _ (Z.min _ _)) by lia.
    apply filter_all_false, Forall_seqZ. intros x Hx.
    destruct (announces attempts x) eqn:E; [|reflexivity].
    apply announces_iff in E. lia.
  - set (m := Z.max 2 (attempts - 2)).
    replace attempts with ((m - 1) + (attempts - m + 1)) at 2 by lia.
    rewrite seqZ_app by lia. rewrite List.filter_app.
    rewrite filter_all_false, filter_all_true.
    + simpl. f_equal; lia.
    + apply Forall_seqZ. intros x Hx. apply announces_iff. lia.
    + apply Forall_seqZ. intros x Hx.
      destruct (announces attempts x) eqn:E; [|reflexivity].
      apply announces_iff in E. lia.
Qed.

(** X13.  The start hook, given the number of the attempt, records the
    clock in the context and prints the retry message exactly when the
    attempt is not the first and at most two attempts are left after it.
    So of the attempts [1 .. attempts] of one request at most three are
    announced, the last ones, whatever [attempts] is; and without the key
    ["current_attempt"] the hook raises [KeyError]. *)
Theorem X13_retry_message attempts t ctx :
  (trace_request_ctx ctx !! "current_attempt" = None ->
   generate_on_request_start attempts t ctx = Raise (KeyError "current_attempt"))
  /\ (forall current_attempt,
        trace_request_ctx ctx !! "current_attempt" = Some current_attempt ->
        exists printed,
          generate_on_request_start attempts t ctx
          = Ok (printed,
                {| trace_request_ctx := trace_request_ctx ctx;
                   start := Some t |})
          /\ (2 <= current_attempt /\ attempts - 2 <= current_attempt ->
              printed
              = Some (retry_message current_attempt (attempts - current_attempt)))
          /\ (current_attempt <= 1 \/ current_attempt < attempts - 2 ->
              printed = None))
  /\ List.filter (announces attempts) (seqZ 1 attempts)
     = seqZ (Z.max 2 (attempts - 2)) (Z.min (attempts - 1) 3)
  /\ (length (List.filter (announces attempts) (seqZ 1 attempts)) <= 3)%nat.
Proof.
  unfold generate_on_request_start. split; [|split; [|split]].
  - now intros ->.
  - intros current_attempt ->. cbv zeta. eexists. split; [reflexivity|].
    split.
    + intros H%announces_iff. now rewrite H.
    + intros H. destruct (announces attempts current_attempt) eqn:E;
        [|reflexivity].
      apply announces_iff in E. lia.
  - apply announced_attempts.
  - rewrite announced_attempts, length_seqZ. lia.
Qed.

Lemma X13_retry_message_witness :
  let ctx := {| trace_request_ctx := {[ "current_attempt" := 5 ]};
                start := None |} in
  trace_request_ctx ctx !! "current_attempt" = Some 5 /\
  generate_on_request_start 5 (7 # 2) ctx
  = Ok (Some "Retrying request, attempt number 5, only 0 attempt(s) left",
        {| trace_request_ctx := {[ "current_attempt" := 5 ]};
           start := Some (7 # 2) |}) /\
  List.filter (announces 5) (seqZ 1 5) = [3; 4; 5].
Proof.
  intros ctx.
  assert (Hk : trace_request_ctx ctx !! "current_attempt" = Some 5)
    by reflexivity.
  destruct (X13_retry_message 5 (7 # 2) ctx) as (_ & Hmsg & Hlist & _).
  destruct (Hmsg 5 Hk) as (printed & Hrun & Hyes & _).
  split; [exact Hk|]. split.
  - rewrite Hrun, Hyes by lia. reflexivity.
  - rewrite Hlist. reflexivity.
Defined.

(** ** The width of the progress bar *)

Lemma length_append s1 s2 :
  String.length (s1 +:+ s2) = (String.length s1 + String.length s2)%nat.
Proof. induction s1 as [|c s1 IH]; simpl; [reflexivity | now rewrite IH]. Qed.

Lemma length_substring_0 m s :
  (m <= String.length s)%nat -> String.length (substring 0 m s) = m.
Proof.
  revert m. induction s as [|c s IH]; intros [|m]; simpl; try lia.
  intros H. rewrite IH; lia.
Qed.

Lemma append_empty_r s : s +:+ EmptyString = s.
Proof.
  induction s as [|c s IH]; [reflexivity|].
  change (String c (s +:+ EmptyString) = String c s). now rewrite IH.
Qed.

Lemma concat_empty_cons x l :
  String.concat EmptyString (x :: l) = x +:+ String.concat EmptyString l.
Proof.
  destruct l as [|y l]; [|reflexivity].
  change (x = x +:+ EmptyString). now rewrite append_empty_r.
Qed.

Lemma length_py_repeat (c : string) n :
  String.length c = 1%nat -> String.length (py_repeat c n) = Z.to_nat n.
Proof.
  intros Hc. unfold py_repeat.
  induction (Z.to_nat n) as [|k IH]; [reflexivity|].
  change (replicate (S k) c) with (c :: replicate k c).
  rewrite concat_empty_cons, length_append, Hc, IH. reflexivity.
Qed.

Lemma length_drop_last s :
  String.length (drop_last s) = (String.length s - 1)%nat.
Proof. unfold drop_last. apply length_substring_0. lia. Qed.

(** X14.  The bar between the brackets is [cols] characters wide exactly
    when [1 <= percent <= cols].  At [percent = 0] it is one character
    wider, because the [">"] is appended to an empty [full]; for a
    [percent] of at least 1 and above [cols] it is [percent] wide. *)
Theorem X14_bar_width percent cols :
  String.length (bar percent cols)
  = (Z.to_nat (Z.max percent 1) + Z.to_nat (cols - percent))%nat
  /\ (1 <= percent <= cols -> String.length (bar percent cols) = Z.to_nat cols)
  /\ (percent = 0 -> 0 <= cols ->
      String.length (bar percent cols) = S (Z.to_nat cols))
  /\ (1 <= percent -> cols < percent ->
      String.length (bar percent cols) = Z.to_nat percent).
Proof.
  assert (H : String.length (bar percent cols)
              = (Z.to_nat (Z.max percent 1) + Z.to_nat (cols - percent))%nat).
  { unfold bar. cbv zeta.
    rewrite !length_append, length_drop_last, !length_py_repeat by reflexivity.
    simpl. destruct (Z.max_spec percent 1) as [[? ->]|[? ->]]; lia. }
  split; [exact H|]. rewrite H.
  destruct (Z.max_spec percent 1) as [[? ->]|[? ->]];
    (split; [|split]); intros; lia.
Qed.

Lemma X14_bar_width_witness :
  1 <= 2 <= 40 /\
  bar 2 40 = "=>                                      " /\
  String.length (bar 2 40) = 40%nat /\
  String.length (bar 0 40) = 41%nat.
Proof.
  destruct (X14_bar_width 2 40) as (_ & Hin & _).
  destruct (X14_bar_width 0 40) as (_ & _ & Hzero & _).
  split; [lia|]. split; [reflexivity|].
  split; [exact (Hin ltac:(lia)) | exact (Hzero eq_refl ltac:(lia))].
Defined.

(** ** Where the tasks are *)

Lemma run_upcoming a schedule :
  forall s s',
    run a schedule s = Ok s' ->
    upcoming s = requests a schedule s ++ upcoming s'.
Proof.
  induction schedule as [|l schedule IH]; intros s s'; simpl.
  - now intros [= <-].
  - destruct (step a l s) as [s1| |e] eqn:E; cbn [mbind Result_bind];
      try discriminate.
    intros Hrun. pose proof (step_upcoming a l s s1 E) as Hup.
    destruct (request_of l s) as [config|].
    + rewrite Hup, (IH s1 s' Hrun). reflexivity.
    + rewrite <- Hup. exact (IH s1 s' Hrun).
Qed.

Lemma length_upcoming a s :
  Inv a s ->
  Z.of_nat (length (upcoming s)) + produced (n_configs a) (producer_pc s)
  = Z.of_nat (length (source_queue s)) + n_configs a.
Proof.
  intros HI. pose proof (inv_producer a s HI) as Hp.
  unfold upcoming. rewrite length_app.
  destruct (producer_pc s); simpl in *; lia.
Qed.

(** X15.  No task gets lost inside the pipeline.  In every state each
    input task is in exactly one place: still to be taken (in the work
    queue or not yet enqueued), held by a consumer, or counted in [done].
    When [asyncio.gather] has returned, the input is, in order, the tasks
    that were passed to the collaborator followed by the tasks left in the
    work queue (the producer enqueues every task, stop flag or not), and
    there is one returned outcome per task passed; without
    [stop_on_first_fail] nothing is left. *)
Theorem X15_tasks_are_conserved a schedule s :
  (attempts a <? 1) = false ->
  run a schedule (async_main_init a (init_shared a)) = Ok s ->
  SharedMemory_init
    (if configs_has_len a then Z.of_nat (length (configs a)) else -1)
    (arg_disable_bar a) = Ok (init_shared a) ->
  Z.of_nat (length (configs a))
  = Z.of_nat (length (upcoming s)) + count holding (consumers s)
    + done (shared s)
  /\ (all_returned s = true ->
      configs a
      = requests a schedule (async_main_init a (init_shared a))
        ++ source_queue s
      /\ length (requests a schedule (async_main_init a (init_shared a)))
         = length (empty_full_queue (sink_queue s))
      /\ (stop_on_first_fail a = false -> source_queue s = [])).
Proof.
  intros Hatt Hrun Hinit.
  assert (Hs : reachable a s).
  { apply (run_reachable a schedule (async_main_init a (init_shared a)));
      [|exact Hrun]. now apply reachable_init. }
  pose proof (reachable_Inv a s Hs) as HI.
  pose proof (length_upcoming a s HI) as Hlen.
  pose proof (inv_work a s HI) as Hwork.
  pose proof (inv_sink a s HI) as Hsink.
  unfold n_configs in *. split; [lia|].
  intros Hret.
  destruct (all_returned_counts s Hret) as (Hh & Hc & _).
  destruct (all_returned_pcs s Hret) as (Hp & Hk & _).
  pose proof (run_upcoming a schedule _ s Hrun) as Hup.
  rewrite upcoming_init in Hup.
  assert (Hq : upcoming s = source_queue s).
  { unfold upcoming. rewrite Hp. apply app_nil_r. }
  rewrite Hq in Hup, Hlen.
  split; [exact Hup|].
  assert (Hn : length (configs a)
               = (length (requests a schedule
                            (async_main_init a (init_shared a)))
                  + length (source_queue s))%nat)
    by (rewrite Hup at 1; apply length_app).
  assert (Hall : Z.of_nat (length (configs a))
                 = Z.of_nat (length (source_queue s)) + done (shared s)).
  { rewrite Hp in Hwork. simpl in Hwork. lia. }
  rewrite empty_full_queue_all. split.
  { revert Hn.
    generalize (length (requests a schedule
                          (async_main_init a (init_shared a)))).
    intros r Hn. lia. }
  intros Hoff.
  destruct (inv_canceler a s HI Hk) as [Hstop|Hdone].
  - destruct (inv_stop_cause a s (reachable_Inv2 a s Hs) Hstop) as [Hon _].
    congruence.
  - unfold n_configs in Hdone. apply length_zero_iff_nil. lia.
Qed.

Lemma X15_tasks_are_conserved_witness :
  let s := state_after stop_args (init_shared stop_args) stop_schedule in
  run stop_args stop_schedule
    (async_main_init stop_args (init_shared stop_args)) = Ok s /\
  all_returned s = true /\
  requests stop_args stop_schedule
    (async_main_init stop_args (init_shared stop_args)) = [task "a"] /\
  source_queue s = [task "b"] /\
  configs stop_args = [task "a"] ++ [task "b"].
Proof.
  intros s.
  assert (Hrun : run stop_args stop_schedule
                   (async_main_init stop_args (init_shared stop_args)) = Ok s)
    by (vm_compute; reflexivity).
  assert (Hret : all_returned s = true) by (vm_compute; reflexivity).
  assert (Hreq : requests stop_args stop_schedule
                   (async_main_init stop_args (init_shared stop_args))
                 = [task "a"]) by (vm_compute; reflexivity).
  assert (Hq : source_queue s = [task "b"]) by (vm_compute; reflexivity).
  destruct (X15_tasks_are_conserved stop_args stop_schedule s
              eq_refl Hrun eq_refl) as [_ Hend].
  destruct (Hend Hret) as (Hcfg & _ & _).
  split; [exact Hrun|]. split; [exact Hret|]. split; [exact Hreq|].
  split; [exact Hq|]. rewrite Hcfg, Hreq, Hq. reflexivity.
Defined.
